(** * Blog storage and editor logic with optional GitHub sync (blog.js)

    A shallow embedding of the storage half of [blog.js]: the local record
    store kept in [localStorage], the GitHub contents client, the index
    maintenance and the click handlers of the editor and reader pages.

    Conventions of the embedding.
    - JavaScript strings are [string]s, a text being its UTF-8 bytes.
      [length] and [slice] agree with the JavaScript ones on ASCII text,
      where a character is one unit, and [trim] removes the white space of
      ASCII only.
    - Epoch milliseconds are [Z].
    - A thrown exception is a [Throw] completion; [try]/[catch] is
      [try_catch] ([try_or] where no world is involved).
    - Stored JSON is kept parsed: a slot of [localStorage] or a file of the
      repository either holds text that [JSON.parse] rejects, or the value
      that [JSON.stringify] wrote.  [JSON.stringify] followed by
      [JSON.parse] is the identity on the records the program writes.
      [Raw] has the read of a slot for every JSON value, also those the
      program never writes.
    - DOM rendering ([listDrafts], the reader's markup) is left out; alerts
      and navigation are recorded in the world. *)

From Stdlib Require Import ZArith Lia List String Ascii Sorted.
From stdpp Require Import base gmap strings list sorting.

Open Scope string_scope.
Open Scope Z_scope.

(** ** JavaScript strings *)

Definition code (c : ascii) : N := N_of_ascii c.

(** White space removed by [String.prototype.trim], within ASCII; the
    white space beyond ASCII (the no-break space and the like) stays. *)
Definition is_ws (c : ascii) : bool :=
  let n := code c in
  ((9 <=? n) && (n <=? 13))%N || (n =? 32)%N.

Fixpoint trimStart (s : string) : string :=
  match s with
  | EmptyString => EmptyString
  | String c r => if is_ws c then trimStart r else s
  end.

Fixpoint trimEnd (s : string) : string :=
  match s with
  | EmptyString => EmptyString
  | String c r =>
      match trimEnd r with
      | EmptyString => if is_ws c then EmptyString else String c EmptyString
      | r' => String c r'
      end
  end.

Definition trim (s : string) : string := trimEnd (trimStart s).

(** [s.slice(0, n)], on ASCII text, where a character is one unit. *)
Definition slice0 (n : nat) (s : string) : string := substring 0 n s.

(** A string is truthy when it is not empty. *)
Definition truthy (s : string) : bool := negb (String.eqb s "").

(** The line separator U+2028 or the paragraph separator U+2029 (bytes
    226 128 168 and 226 128 169) begins at [String c r]. *)
Definition separator_at (c : ascii) (r : string) : bool :=
  (code c =? 226)%N &&
  match r with
  | String c1 (String c2 _) =>
      (code c1 =? 128)%N && ((code c2 =? 168)%N || (code c2 =? 169)%N)
  | _ => false
  end.

(** [content.replace(/<(.|\n)*?>/g, '')].  At a ['<'] the lazy group runs to
    the first ['>'], provided no carriage return, line separator or
    paragraph separator lies between ([.] matches no line terminator and
    the alternative only adds ['\n']); without such a ['>'] the ['<']
    stays.  [strip_scan s] is the pair of the stripped [s] and, when a
    match opened just before [s] closes inside [s], the stripped text
    after that match. *)
Fixpoint strip_scan (s : string) : string * option string :=
  match s with
  | EmptyString => (EmptyString, None)
  | String c r =>
      let '(plain, closed) := strip_scan r in
      let here :=
        if Ascii.eqb c "<" then
          match closed with
          | Some rest => rest
          | None => String c plain
          end
        else String c plain in
      let close :=
        if Ascii.eqb c ">" then Some plain
        else if (code c =? 13)%N || separator_at c r then None
        else closed in
      (here, close)
  end.

Definition stripTags (s : string) : string := fst (strip_scan s).

(** [n.toString(36)] for an integer. *)
Definition digit36 (d : N) : ascii :=
  if (d <? 10)%N then ascii_of_N (48 + d) else ascii_of_N (87 + d).

Fixpoint toString36_digits (fuel : nat) (n : N) (acc : string) : string :=
  match fuel with
  | O => acc
  | S fuel' =>
      let acc' := String (digit36 (n mod 36)) acc in
      if (n / 36 =? 0)%N then acc' else toString36_digits fuel' (n / 36) acc'
  end.

Definition toString36 (z : Z) : string :=
  let n := Z.abs_N z in
  let digits := toString36_digits (S (N.to_nat (N.log2 n))) n "" in
  if z <? 0 then "-" +:+ digits else digits.

(** The truncation marker, U+2026, as its UTF-8 bytes. *)
Definition ellipsis : string :=
  String (ascii_of_N 226) (String (ascii_of_N 128) (String (ascii_of_N 166) "")).

(** ** Data model *)

(** A content record, as [gatherPostData] builds it. *)
Module Post.
Record t := mk {
  id : string;
  title : string;
  content : string;
  cover : string;
  excerpt : string;
  updatedAt : Z;
  createdAt : Z
}.
End Post.

(** An entry of an index file.  What [saveToGitHub] writes has every field;
    an entry read back from the repository may lack its time stamps. *)
Module Meta.
Record t := mk {
  id : string;
  title : string;
  excerpt : string;
  cover : string;
  updatedAt : option Z;
  createdAt : option Z
}.
End Meta.

(** The GitHub settings object; a field is [None] when the stored object
    does not have it, as after [setGhSettings({})]. *)
Record GhSettings := {
  owner : option string;
  repo : option string;
  branch : option string;
  token : option string
}.

(** ** Completions *)

Inductive error :=
  | SyntaxError
  | TypeError
  | NetworkError
  | HttpError (status : Z).

Inductive completion (A : Type) :=
  | Normal (a : A)
  | Throw (e : error).
Arguments Normal {A} a.
Arguments Throw {A} e.

Definition is_normal {A} (c : completion A) : bool :=
  match c with Normal _ => true | Throw _ => false end.

(** ** localStorage *)

Inductive collection := drafts | posts.

#[global] Instance collection_eq_dec : EqDecision collection.
Proof. solve_decision. Defined.

Definition STORAGE_KEYS (k : collection) : string :=
  match k with
  | drafts => "portfolio_blog_drafts"
  | posts => "portfolio_blog_posts"
  end.

Definition STORAGE_KEYS_gh : string := "portfolio_github_settings".

(** What a slot holds: text that is not JSON, or a JSON value. *)
Inductive item (A : Type) :=
  | Unparseable (raw : string)
  | Json (v : A).
Arguments Unparseable {A} raw.
Arguments Json {A} v.

Record LocalStorage := {
  ls_drafts : option (item (list Post.t));
  ls_posts : option (item (list Post.t));
  ls_gh : option (item GhSettings)
}.

Definition getItem (ls : LocalStorage) (k : collection) : option (item (list Post.t)) :=
  match k with
  | drafts => ls_drafts ls
  | posts => ls_posts ls
  end.

Definition setItem (ls : LocalStorage) (k : collection) (v : item (list Post.t)) : LocalStorage :=
  match k with
  | drafts => {| ls_drafts := Some v; ls_posts := ls_posts ls; ls_gh := ls_gh ls |}
  | posts => {| ls_drafts := ls_drafts ls; ls_posts := Some v; ls_gh := ls_gh ls |}
  end.

(** [JSON.parse(localStorage.getItem(key))]: a missing key reads as [null],
    which parses to [null] (here [None]); text that is not JSON throws. *)
Definition JSON_parse {A} (x : option (item A)) : completion (option A) :=
  match x with
  | None => Normal None
  | Some (Unparseable _) => Throw SyntaxError
  | Some (Json v) => Normal (Some v)
  end.

(** [try { ... } catch { ... }] on a pure computation. *)
Definition try_or {A} (c : completion A) (handler : completion A) : completion A :=
  match c with
  | Normal a => Normal a
  | Throw _ => handler
  end.

(** [try { return JSON.parse(localStorage.getItem(key)) || []; } catch { return []; }]
    on the slots of [LocalStorage], which hold an array of records or text
    that is not JSON; [Raw.loadArray] is the same function on every text
    a slot can hold. *)
Definition loadArray (ls : LocalStorage) (key : collection) : completion (list Post.t) :=
  try_or
    match JSON_parse (getItem ls key) with
    | Normal (Some arr) => Normal arr
    | Normal None => Normal []
    | Throw e => Throw e
    end
    (Normal []).

(** [localStorage.setItem(key, JSON.stringify(arr))] *)
Definition saveArray (ls : LocalStorage) (key : collection) (arr : list Post.t) : LocalStorage :=
  setItem ls key (Json arr).

(** [arr.findIndex(p)], [-1] when no element passes. *)
Fixpoint findIndex {A} (p : A -> bool) (arr : list A) : Z :=
  match arr with
  | [] => -1
  | x :: rest =>
      if p x then 0
      else let i := findIndex p rest in if i <? 0 then -1 else i + 1
  end.

Definition same_id (item x : Post.t) : bool := String.eqb (Post.id x) (Post.id item).

(** [upsert(arr, item)]: the index found is always in range, so the
    assignment [arr[idx] = item] is an in-place update. *)
Definition upsert (arr : list Post.t) (item : Post.t) : list Post.t :=
  let idx := findIndex (same_id item) arr in
  if idx >=? 0 then <[Z.to_nat idx := item]> arr else (arr ++ [item])%list.

(** [arr.filter(x => x.id !== id)] *)
Definition removeById (arr : list Post.t) (id : string) : list Post.t :=
  filter (fun x => Post.id x ≠ id) arr.

(** [arr.find(p)] *)
Definition find {A} (p : A -> bool) (arr : list A) : option A := List.find p arr.

(** ** The GitHub repository *)

(** A JSON value the program writes to, or reads from, the repository. *)
Inductive json :=
  | JPost (r : Post.t)
  | JIndex (l : list Meta.t).

(** The body of a [PUT]: [{ message, content, branch, sha }].  The base64
    coding of the content is undone by the server and left out. *)
Record put_body := {
  message : string;
  put_content : item json;
  put_branch : option string;
  put_sha : option string
}.

Inductive request :=
  | GET_contents (path : string)
  | PUT_contents (path : string) (body : put_body)
  | GET_raw (path : string).

Inductive http_failure :=
  | Unauthorized | Forbidden | NotFound | Conflict | Unprocessable
  | ServerError | Unavailable.

Definition status_of (f : http_failure) : Z :=
  match f with
  | Unauthorized => 401 | Forbidden => 403 | NotFound => 404
  | Conflict => 409 | Unprocessable => 422
  | ServerError => 500 | Unavailable => 503
  end.

(** What the network does to one request: deliver it, lose it ([fetch]
    rejects), or answer it with a failure status before it takes effect. *)
Inductive outage :=
  | Up
  | Down
  | Refuse (f : http_failure).

Inductive payload :=
  | NoData
  | Contents (sha : string)
  | Text (t : item json).

Record response := {
  status : Z;
  data : payload
}.

(** [res.ok] *)
Definition ok (res : response) : bool := (200 <=? status res) && (status res <=? 299).

(** The repository and branch the settings name: files by path, each with
    its version token; the outages to come, one per request; the requests
    made so far. *)
Record Remote := {
  files : gmap string (item json * string);
  net : list outage;
  log : list request;
  commits : Z
}.

(** Modelled from the spec: the contents API and the raw host, which are
    not part of the repository.  A lookup answers with the version token of
    an existing path and with 404 otherwise; a write is accepted when the
    token it carries is the current one of the path (none for a new path)
    and is a conflict otherwise; a raw read answers with the text of the
    file, or 404. *)
Definition serve (req : request) (r : Remote) : response * Remote :=
  match req with
  | GET_contents path =>
      match files r !! path with
      | Some (_, sha) => ({| status := 200; data := Contents sha |}, r)
      | None => ({| status := status_of NotFound; data := NoData |}, r)
      end
  | GET_raw path =>
      match files r !! path with
      | Some (t, _) => ({| status := 200; data := Text t |}, r)
      | None => ({| status := status_of NotFound; data := NoData |}, r)
      end
  | PUT_contents path body =>
      let current : option string := snd <$> (files r !! path) in
      if decide (current = put_sha body) then
        let sha := "sha" +:+ toString36 (commits r) in
        ({| status := match current with Some _ => 200 | None => 201 end; data := Contents sha |},
         {| files := <[path := (put_content body, sha)]> (files r);
            net := net r; log := log r; commits := commits r + 1 |})
      else ({| status := status_of Conflict; data := NoData |}, r)
  end.

(** ** The page *)

(** The editor's inputs and the closure variables of the editor block. *)
Record Editor := {
  titleInput : string;
  quill_innerHTML : string;
  quill_getText : string;
  currentDraftId : option string;
  coverDataUrl : string
}.

Inductive ui_event :=
  | Alert (msg : string)
  | Navigate (href : string).

Record World := {
  localStorage : LocalStorage;
  github : Remote;
  editor : Editor;
  ui : list ui_event
}.

Definition with_localStorage (w : World) (ls : LocalStorage) : World :=
  {| localStorage := ls; github := github w; editor := editor w; ui := ui w |}.

Definition with_github (w : World) (r : Remote) : World :=
  {| localStorage := localStorage w; github := r; editor := editor w; ui := ui w |}.

Definition with_editor (w : World) (e : Editor) : World :=
  {| localStorage := localStorage w; github := github w; editor := e; ui := ui w |}.

Definition with_ui (w : World) (u : list ui_event) : World :=
  {| localStorage := localStorage w; github := github w; editor := editor w; ui := u |}.

(** ** Computations: a world threaded through, and a completion *)

Definition M (A : Type) : Type := World -> completion A * World.

Definition ret {A} (a : A) : M A := fun w => (Normal a, w).

Definition bind {A B} (m : M A) (k : A -> M B) : M B :=
  fun w =>
    match m w with
    | (Normal a, w') => k a w'
    | (Throw e, w') => (Throw e, w')
    end.

Definition throw {A} (e : error) : M A := fun w => (Throw e, w).

(** [try { m } catch (e) { handler }]; also [promise.catch(handler)]. *)
Definition try_catch {A} (m : M A) (handler : error -> M A) : M A :=
  fun w =>
    match m w with
    | (Normal a, w') => (Normal a, w')
    | (Throw e, w') => handler e w'
    end.

Definition lift {A} (f : World -> completion A) : M A := fun w => (f w, w).

Definition modify (f : World -> World) : M unit := fun w => (Normal tt, f w).

Notation "'let!' x ':=' m 'in' k" := (bind m (fun x => k))
  (at level 10, x name, m at level 100, k at level 200).
Notation "m ';;;' k" := (bind m (fun _ => k))
  (at level 100, k at level 200, right associativity).

Definition alert (msg : string) : M unit :=
  modify (fun w => with_ui w (ui w ++ [Alert msg])%list).

(** [window.location.href = url] *)
Definition navigate (url : string) : M unit :=
  modify (fun w => with_ui w (ui w ++ [Navigate url])%list).

(** ** GitHub settings *)

(** [try { return JSON.parse(localStorage.getItem(STORAGE_KEYS.gh)) || null; } catch { return null; }] *)
Definition getGhSettings : M (option GhSettings) :=
  lift (fun w =>
    try_or
      match JSON_parse (ls_gh (localStorage w)) with
      | Normal (Some s) => Normal (Some s)
      | Normal None => Normal None
      | Throw e => Throw e
      end
      (Normal None)).

(** [localStorage.setItem(STORAGE_KEYS.gh, JSON.stringify(s || {}))] *)
Definition setGhSettings (s : GhSettings) : M unit :=
  modify (fun w =>
    with_localStorage w
      {| ls_drafts := ls_drafts (localStorage w);
         ls_posts := ls_posts (localStorage w);
         ls_gh := Some (Json s) |}).

(** Truthiness of a field that may be missing. *)
Definition field (f : option string) : bool :=
  match f with
  | Some s => truthy s
  | None => false
  end.

(** [s && s.owner && s.repo && s.branch && s.token] *)
Definition all_four (s : option GhSettings) : bool :=
  match s with
  | Some s => field (owner s) && field (repo s) && field (branch s) && field (token s)
  | None => false
  end.

Definition hasGhConfig : M bool :=
  let! s := getGhSettings in ret (all_four s).

(** ** GitHub API client (contents API) *)

(** [fetch]: the request is recorded; the next outage decides whether it
    reaches the server. *)
Definition fetch (req : request) : M response :=
  fun w =>
    let r := github w in
    let logged n := {| files := files r; net := n; log := (log r ++ [req])%list; commits := commits r |} in
    match net r with
    | [] => let '(res, r') := serve req (logged []) in (Normal res, with_github w r')
    | Up :: n => let '(res, r') := serve req (logged n) in (Normal res, with_github w r')
    | Down :: n => (Throw NetworkError, with_github w (logged n))
    | Refuse f :: n =>
        (Normal {| status := status_of f; data := NoData |}, with_github w (logged n))
    end.

(** [GitHubClient.request]: reading [s.owner] of a missing settings object
    is a [TypeError]; a response that is not [ok] is thrown. *)
Definition GitHubClient_request (req : request) : M payload :=
  let! s := getGhSettings in
  match s with
  | None => throw TypeError
  | Some _ =>
      let! res := fetch req in
      if ok res then ret (data res) else throw (HttpError (status res))
  end.

(** [data && data.sha ? data.sha : null] *)
Definition sha_of (d : payload) : option string :=
  match d with
  | Contents sha => if truthy sha then Some sha else None
  | _ => None
  end.

Definition getContentSha (path : string) : M (option string) :=
  try_catch
    (let! d := GitHubClient_request (GET_contents path) in ret (sha_of d))
    (fun _ => ret None).

Definition putFile (path : string) (contentText : item json) (msg : string) : M payload :=
  let! s := getGhSettings in
  let! sha := getContentSha path in
  match s with
  | None => throw TypeError
  | Some s =>
      GitHubClient_request
        (PUT_contents path
           {| message := msg; put_content := contentText;
              put_branch := branch s; put_sha := sha |})
  end.

(** [res.text()] of a raw read. *)
Definition text_of (d : payload) : item json :=
  match d with
  | Text t => t
  | _ => Unparseable ""
  end.

Definition readRaw (path : string) : M (item json) :=
  let! s := getGhSettings in
  match s with
  | None => throw TypeError
  | Some _ =>
      let! res := fetch (GET_raw path) in
      if ok res then ret (text_of (data res)) else throw (HttpError (status res))
  end.

(** [!txt]: only the empty text is falsy. *)
Definition empty_text (t : item json) : bool :=
  match t with
  | Unparseable raw => negb (truthy raw)
  | Json _ => false
  end.

Definition parse_text (t : item json) : completion (option json) := JSON_parse (Some t).

Definition readJson (path : string) : M (option json) :=
  let! txt := try_catch (readRaw path) (fun _ => ret (Unparseable "")) in
  if empty_text txt then ret None
  else ret match parse_text txt with
           | Normal v => v
           | Throw _ => None
           end.

(** ** Local store API *)

Definition BlogStore_getDrafts : M (list Post.t) :=
  lift (fun w => loadArray (localStorage w) drafts).

Definition BlogStore_getPosts : M (list Post.t) :=
  lift (fun w => loadArray (localStorage w) posts).

Definition has_id (id : option string) (p : Post.t) : bool :=
  match id with
  | Some id => String.eqb (Post.id p) id
  | None => false
  end.

(** [this.getPosts().find(p => p.id === id)]; the [id] of the reader page is
    [null] when the address has no [id] parameter. *)
Definition BlogStore_getPostById (id : option string) : M (option Post.t) :=
  let! ps := BlogStore_getPosts in ret (find (has_id id) ps).

Definition write (key : collection) (arr : list Post.t) : M unit :=
  modify (fun w => with_localStorage w (saveArray (localStorage w) key arr)).

Definition BlogStore_saveDraft (draft : Post.t) : M unit :=
  let! ds := BlogStore_getDrafts in write drafts (upsert ds draft).

Definition BlogStore_deleteDraft (id : string) : M unit :=
  let! ds := BlogStore_getDrafts in write drafts (removeById ds id).

Definition BlogStore_publish (post : Post.t) : M unit :=
  let! ps := BlogStore_getPosts in write posts (upsert ps post).

Definition BlogStore_deletePost (id : string) : M unit :=
  let! ps := BlogStore_getPosts in write posts (removeById ps id).

(** ** Editor logic *)

(** ['p_' + Math.random().toString(36).slice(2) + Date.now().toString(36)];
    [random] is the text of the random fraction. *)
Definition generateId (random : string) (now : Z) : string :=
  "p_" +:+ random +:+ toString36 now.

(** [currentDraftId || generateId()] *)
Definition draft_id (current : option string) (random : string) (now : Z) : string :=
  match current with
  | Some id => if truthy id then id else generateId random now
  | None => generateId random now
  end.

(** [gatherPostData]; the clock is read once per click, [now] serving
    both the record and a generated identifier. *)
Definition gatherPostData (random : string) (now : Z) : M Post.t :=
  lift (fun w =>
    let e := editor w in
    let title := trim (titleInput e) in
    let content := quill_innerHTML e in
    let plainText := trim (quill_getText e) in
    let excerpt :=
      slice0 180 plainText +:+
      (if (180 <? String.length plainText)%nat then ellipsis else "") in
    Normal {| Post.id := draft_id (currentDraftId e) random now;
              Post.title := title; Post.content := content;
              Post.cover := coverDataUrl e; Post.excerpt := excerpt;
              Post.updatedAt := now; Post.createdAt := now |}).

Definition set_currentDraftId (id : string) : M unit :=
  modify (fun w =>
    with_editor w
      {| titleInput := titleInput (editor w);
         quill_innerHTML := quill_innerHTML (editor w);
         quill_getText := quill_getText (editor w);
         currentDraftId := Some id;
         coverDataUrl := coverDataUrl (editor w) |}).

(** [loadDraft(id)]; [plain] is the text Quill shows for the loaded markup. *)
Definition loadDraft (id : string) (plain : string) : M unit :=
  let! ds := BlogStore_getDrafts in
  match find (has_id (Some id)) ds with
  | None => ret tt
  | Some draft =>
      modify (fun w =>
        with_editor w
          {| titleInput := Post.title draft;
             quill_innerHTML := Post.content draft;
             quill_getText := plain;
             currentDraftId := Some id;
             coverDataUrl := Post.cover draft |})
  end.

(** The click handler of [save-draft-local]. *)
Definition saveDraftLocal_click (random : string) (now : Z) : M unit :=
  let! data := gatherPostData random now in
  BlogStore_saveDraft data ;;;
  set_currentDraftId (Post.id data) ;;;
  alert "Draft saved locally".

Definition kind_name (kind : collection) : string :=
  match kind with
  | drafts => "drafts"
  | posts => "posts"
  end.

Definition index_path (kind : collection) : string := kind_name kind +:+ "/index.json".

Definition record_path (kind : collection) (id : string) : string :=
  kind_name kind +:+ "/" +:+ id +:+ ".json".

(** [b.updatedAt || 0] *)
Definition updatedAt_or_0 (x : Meta.t) : Z :=
  match Meta.updatedAt x with
  | Some t => t
  | None => 0
  end.

(** The comparator [(a,b) => (b.updatedAt||0)-(a.updatedAt||0)]. *)
Definition newest_first (a b : Meta.t) : Z := updatedAt_or_0 b - updatedAt_or_0 a.

(** [Array.prototype.sort] with a comparator: a stable sort, written as an
    insertion sort.  An element goes before the first one it does not
    compare greater than. *)
Fixpoint sort_insert {A} (cmp : A -> A -> Z) (x : A) (sorted : list A) : list A :=
  match sorted with
  | [] => [x]
  | y :: rest => if cmp x y >? 0 then y :: sort_insert cmp x rest else x :: sorted
  end.

Definition Array_sort {A} (cmp : A -> A -> Z) (arr : list A) : list A :=
  foldr (sort_insert cmp) [] arr.

(** The array [upsertIndex] writes, given the one it read. *)
Definition updated_index (existing : list Meta.t) (meta : Meta.t) : list Meta.t :=
  let filtered := filter (fun x => Meta.id x ≠ Meta.id meta) existing in
  let filtered := (filtered ++ [meta])%list in
  Array_sort newest_first filtered.

(** [`chore: update ${kind} index (${meta.id})`] *)
Definition index_message (kind : collection) (meta : Meta.t) : string :=
  "chore: update " +:+ kind_name kind +:+ " index (" +:+ Meta.id meta +:+ ")".

(** [upsertIndex(kind, meta)]: an index file that holds an object has no
    [filter], a [TypeError]. *)
Definition upsertIndex (kind : collection) (meta : Meta.t) : M unit :=
  let filename := index_path kind in
  let! existing := readJson filename in
  match existing with
  | Some (JPost _) => throw TypeError
  | Some (JIndex l) =>
      putFile filename (Json (JIndex (updated_index l meta))) (index_message kind meta) ;;;
      ret tt
  | None =>
      putFile filename (Json (JIndex (updated_index [] meta))) (index_message kind meta) ;;;
      ret tt
  end.

Definition meta_of (d : Post.t) : Meta.t :=
  {| Meta.id := Post.id d; Meta.title := Post.title d; Meta.excerpt := Post.excerpt d;
     Meta.cover := Post.cover d; Meta.updatedAt := Some (Post.updatedAt d);
     Meta.createdAt := Some (Post.createdAt d) |}.

Definition saveToGitHub (kind : collection) (d : Post.t) : M unit :=
  let path := record_path kind (Post.id d) in
  putFile path (Json (JPost d))
    ((match kind with posts => "feat: publish post" | drafts => "chore: save draft" end)
       +:+ " (" +:+ Post.id d +:+ ")") ;;;
  upsertIndex kind (meta_of d).

(** The click handler of [save-draft-gh]. *)
Definition saveDraftGh_click (random : string) (now : Z) : M unit :=
  let! configured := hasGhConfig in
  if negb configured then alert "Configure GitHub settings first."
  else
    let! data := gatherPostData random now in
    try_catch
      (saveToGitHub drafts data ;;; alert "Draft saved to GitHub.")
      (fun _ => alert "Failed saving draft to GitHub.").

(** [!data.title || !data.content.replace(/<(.|\n)*?>/g, '').trim()] *)
Definition invalid (d : Post.t) : bool :=
  negb (truthy (Post.title d)) || negb (truthy (trim (stripTags (Post.content d)))).

(** The characters [encodeURIComponent] leaves as they are: letters, digits
    and [- _ . ! ~ * ' ( )]. *)
Definition unreserved (c : ascii) : bool :=
  let n := code c in
  ((65 <=? n) && (n <=? 90))%N || ((97 <=? n) && (n <=? 122))%N ||
  ((48 <=? n) && (n <=? 57))%N ||
  existsb (N.eqb n) [45; 95; 46; 33; 126; 42; 39; 40; 41]%N.

Definition hex_digit (d : N) : ascii :=
  if (d <? 10)%N then ascii_of_N (48 + d) else ascii_of_N (55 + d).

(** [encodeURIComponent]: every other byte of the UTF-8 text becomes a
    percent sign and its two upper-case hexadecimal digits. *)
Fixpoint encodeURIComponent (s : string) : string :=
  match s with
  | EmptyString => EmptyString
  | String c rest =>
      if unreserved c then String c (encodeURIComponent rest)
      else String "%" (String (hex_digit (code c / 16))
                         (String (hex_digit (code c mod 16)) (encodeURIComponent rest)))
  end.

(** [`post.html?id=${encodeURIComponent(data.id)}`] *)
Definition post_url (id : string) : string := "post.html?id=" +:+ encodeURIComponent id.

(** The click handler of [publish]. *)
Definition publish_click (random : string) (now : Z) : M unit :=
  let! data := gatherPostData random now in
  if invalid data then alert "Please add a title and some content."
  else
    let! configured := hasGhConfig in
    if configured then
      try_catch
        (saveToGitHub posts data ;;;
         BlogStore_deleteDraft (Post.id data) ;;;
         navigate (post_url (Post.id data)))
        (fun _ => alert "Failed publishing to GitHub. Check settings/token.")
    else
      BlogStore_publish data ;;;
      BlogStore_deleteDraft (Post.id data) ;;;
      navigate (post_url (Post.id data)).

(** ** Reader page *)

(** [s && s.owner && s.repo && s.branch] *)
Definition reads_remote (s : option GhSettings) : bool :=
  match s with
  | Some s => field (owner s) && field (repo s) && field (branch s)
  | None => false
  end.

Definition id_text (id : option string) : string :=
  match id with
  | Some id => id
  | None => "null"
  end.

(** [const txt = await GitHubClient.readRaw(`posts/${id}.json`); post = JSON.parse(txt);] *)
Definition read_remote_post (id : option string) : M (option json) :=
  let! txt := readRaw (record_path posts (id_text id)) in
  lift (fun _ => parse_text txt).

(** The reader's lookup of the post to show: the value found, or [None]
    when the page shows its empty state.  A parsed file is an object or an
    array, both truthy. *)
Definition resolve (id : option string) : M (option json) :=
  let! s := getGhSettings in
  let! post :=
    if reads_remote s then try_catch (read_remote_post id) (fun _ => ret None)
    else ret None in
  match post with
  | Some v => ret (Some v)
  | None =>
      let! p := BlogStore_getPostById id in
      ret (JPost <$> p)
  end.

(** ** What the user does *)

(** The click handler of [gh-save]: the four inputs, trimmed, the branch
    defaulting to ['main']. *)
Definition ghSave_click (o r b t : string) : M unit :=
  setGhSettings
    {| owner := Some (trim o); repo := Some (trim r);
       branch := Some (if truthy (trim b) then trim b else "main");
       token := Some (trim t) |} ;;;
  alert "GitHub settings saved locally.".

(** The click handler of [gh-clear]. *)
Definition ghClear_click : M unit :=
  setGhSettings {| owner := None; repo := None; branch := None; token := None |} ;;;
  alert "GitHub settings cleared.".

(** Typing a title and a text into the editor; [html] and [plain] are what
    Quill reports for the text. *)
Definition edit (title html plain : string) : M unit :=
  modify (fun w =>
    with_editor w
      {| titleInput := title; quill_innerHTML := html; quill_getText := plain;
         currentDraftId := currentDraftId (editor w);
         coverDataUrl := coverDataUrl (editor w) |}).

Inductive event :=
  | Edit (title html plain : string)
  | SaveDraftLocal (random : string) (now : Z)
  | SaveDraftGh (random : string) (now : Z)
  | Publish (random : string) (now : Z)
  | LoadDraft (id plain : string)
  | DeleteDraft (id : string)
  | GhSave (o r b t : string)
  | GhClear.

Definition handle (ev : event) : M unit :=
  match ev with
  | Edit title html plain => edit title html plain
  | SaveDraftLocal random now => saveDraftLocal_click random now
  | SaveDraftGh random now => saveDraftGh_click random now
  | Publish random now => publish_click random now
  | LoadDraft id plain => loadDraft id plain
  | DeleteDraft id => BlogStore_deleteDraft id
  | GhSave o r b t => ghSave_click o r b t
  | GhClear => ghClear_click
  end.

(** The world after a handler has run. *)
Definition after {A} (m : M A) (w : World) : World := snd (m w).

Definition result {A} (m : M A) (w : World) : completion A := fst (m w).

Definition run (evs : list event) (w : World) : World :=
  foldl (fun w ev => after (handle ev) w) w evs.

(** A browser that has never opened the blog, and an empty repository. *)
Definition fresh : World :=
  {| localStorage := {| ls_drafts := None; ls_posts := None; ls_gh := None |};
     github := {| files := ∅; net := []; log := []; commits := 0 |};
     editor := {| titleInput := ""; quill_innerHTML := ""; quill_getText := "";
                  currentDraftId := None; coverDataUrl := "" |};
     ui := [] |}.

Definition reachable (w : World) : Prop := exists evs, w = run evs fresh.

(** ** The properties the statements below speak of *)

(** The settings object [getGhSettings] returns. *)
Definition settings (w : World) : option GhSettings :=
  match ls_gh (localStorage w) with
  | Some (Json s) => Some s
  | _ => None
  end.

(** The array [loadArray] returns. *)
Definition stored (ls : LocalStorage) (key : collection) : list Post.t :=
  match getItem ls key with
  | Some (Json arr) => arr
  | _ => []
  end.

(** The identifiers of a local collection. *)
Definition local_ids (w : World) (key : collection) : list string :=
  Post.id <$> stored (localStorage w) key.

(** The repository only grows: the log is extended and no file is lost. *)
Definition extends (r r' : Remote) : Prop :=
  (exists more, log r' = (log r ++ more)%list) /\
  (forall p : string, is_Some (files r !! p) -> is_Some (files r' !! p)).

(** A computation that touches nothing but the repository. *)
Definition github_only {A} (m : M A) : Prop :=
  forall w, exists r', snd (m w) = with_github w r' /\ extends (github w) r'.

Definition local_has (w : World) (key : collection) (id : string) : Prop :=
  id ∈ local_ids w key.

(** No identifier is both a local draft and a local post. *)
Definition local_disjoint (w : World) : Prop :=
  forall id, ~ (local_has w drafts id /\ local_has w posts id).

(** The repository holds the record file of [id] in the collection. *)
Definition remote_has (w : World) (kind : collection) (id : string) : Prop :=
  is_Some (files (github w) !! record_path kind id).

(** The index of the collection lists [id]. *)
Definition remote_lists (w : World) (kind : collection) (id : string) : Prop :=
  exists l sha,
    files (github w) !! index_path kind = Some (Json (JIndex l), sha) /\
    id ∈ Meta.id <$> l.

(** The record the publish and save handlers gather in [w]. *)
Definition gathered (random : string) (now : Z) (w : World) : Post.t :=
  match result (gatherPostData random now) w with
  | Normal d => d
  | Throw _ => Post.mk "" "" "" "" "" 0 0
  end.

(** The handler ended by leaving for the page of the post. *)
Definition published (w w' : World) (id : string) : Prop :=
  ui w' = (ui w ++ [Navigate (post_url id)])%list.

(** Order of an index: no entry is followed by a newer one. *)
Definition not_older (a b : Meta.t) : Prop := updatedAt_or_0 b <= updatedAt_or_0 a.

(** The array an index file holds, as [upsertIndex] reads it when the
    network is up: a missing or unparseable file reads as empty. *)
Definition index_read (f : option (item json * string)) : option (list Meta.t) :=
  match f with
  | None => Some []
  | Some (Unparseable _, _) => Some []
  | Some (Json (JIndex l), _) => Some l
  | Some (Json (JPost _), _) => None
  end.

Definition entry (id : string) (t : Z) : Meta.t :=
  {| Meta.id := id; Meta.title := ""; Meta.excerpt := ""; Meta.cover := "";
     Meta.updatedAt := Some t; Meta.createdAt := Some t |}.

Definition record (id title : string) (t : Z) : Post.t :=
  {| Post.id := id; Post.title := title; Post.content := "<p>text</p>";
     Post.cover := ""; Post.excerpt := "text"; Post.updatedAt := t; Post.createdAt := t |}.

(** A field of the settings that is present and not empty. *)
Definition nonempty (f : option string) : Prop := exists s, f = Some s /\ s ≠ "".

(** The repository once a request has been sent: logged, and one outage
    used up. *)
Definition sent (req : request) (r : Remote) : Remote :=
  {| files := files r; net := tail (net r); log := (log r ++ [req])%list;
     commits := commits r |}.

(** Whether the next request is delivered. *)
Definition delivered (r : Remote) : bool :=
  match net r with
  | Down :: _ | Refuse _ :: _ => false
  | _ => true
  end.

(** What [getContentSha] finds for a path. *)
Definition looked_up (path : string) (r : Remote) : option string :=
  if delivered r then
    match files r !! path with
    | Some (_, sha) => if truthy sha then Some sha else None
    | None => None
    end
  else None.

(** What [readRaw] ends with for a path. *)
Definition raw_read (path : string) (r : Remote) : completion (item json) :=
  match net r with
  | Down :: _ => Throw NetworkError
  | Refuse f :: _ => Throw (HttpError (status_of f))
  | _ =>
      match files r !! path with
      | Some (t, _) => Normal t
      | None => Throw (HttpError (status_of NotFound))
      end
  end.

(** The local lookup of the reader. *)
Definition local_post (w : World) (id : option string) : option json :=
  JPost <$> find (has_id id) (stored (localStorage w) posts).

(** [await GitHubClient.readJson(filename) || []], as [upsertIndex] starts. *)
Definition existing_index (kind : collection) (w : World) : list Meta.t :=
  match result (readJson (index_path kind)) w with
  | Normal (Some (JIndex l)) => l
  | _ => []
  end.

(** The array the index file of the collection holds afterwards. *)
Definition index_file (kind : collection) (w : World) : option (list Meta.t) :=
  match files (github w) !! index_path kind with
  | Some (Json (JIndex l), _) => Some l
  | _ => None
  end.

(** ** Sample worlds *)

(** The settings saved, nothing else done. *)
Definition configured : World := after (ghSave_click "owner" "repo" "" "token") fresh.

(** A title and a text in the editor. *)
Definition written (w : World) : World := after (edit "Title" "<p>text</p>" "text") w.

(** The repository with the given files, each with the version token ["v"]. *)
Definition holding (w : World) (fs : list (string * item json)) : World :=
  with_github w
    {| files := list_to_map ((fun '(p, t) => (p, (t, "v"))) <$> fs);
       net := net (github w); log := log (github w); commits := commits (github w) |}.

(** The network fails as listed, request by request. *)
Definition failing (w : World) (n : list outage) : World :=
  with_github w
    {| files := files (github w); net := n; log := log (github w);
       commits := commits (github w) |}.

(** What the reader gets from the repository: the parsed file, if the raw
    read delivers one that parses. *)
Definition remote_post (id : option string) (r : Remote) : option json :=
  match raw_read (record_path posts (id_text id)) r with
  | Normal (Json v) => Some v
  | _ => None
  end.

(** The draft saved at 100 and saved again at 200. *)
Definition saved_once : World := after (saveDraftLocal_click "abc" 100) (written fresh).

Definition saved_twice : World := after (saveDraftLocal_click "xyz" 200) saved_once.

(** Two drafts stored under one identifier. *)
Definition stored_twice : World :=
  with_localStorage fresh
    {| ls_drafts := Some (Json [record "p_x" "First" 100; record "p_x" "Second" 200]);
       ls_posts := None; ls_gh := None |}.

(** The settings saved without a token. *)
Definition tokenless : World := after (ghSave_click "owner" "repo" "main" "") fresh.

(** A draft saved locally, saved to the repository, then published. *)
Definition drafted_then_published : World :=
  run [GhSave "owner" "repo" "" "token"; Edit "Title" "<p>text</p>" "text";
       SaveDraftLocal "abc" 100; SaveDraftGh "q" 200; Publish "z" 300] fresh.

(** ** The rest of the page *)

(** The replacement [escapeHtml] makes for one character. *)
Definition escape_char (c : ascii) : string :=
  if Ascii.eqb c "&" then "&amp;"
  else if Ascii.eqb c "<" then "&lt;"
  else if Ascii.eqb c (ascii_of_N 34) then "&quot;"
  else if Ascii.eqb c "'" then "&#039;"
  else if Ascii.eqb c ">" then "&gt;"
  else String c EmptyString.

(** [escapeHtml]: [String(unsafe).replace] with a replacer that maps each
    of the five characters of the class (ampersand, less-than, double
    quote, apostrophe, greater-than) to its entity. *)
Fixpoint escapeHtml (unsafe : string) : string :=
  match unsafe with
  | EmptyString => EmptyString
  | String c rest => escape_char c +:+ escapeHtml rest
  end.

(** The comparator [(a,b) => b.updatedAt - a.updatedAt] of [listDrafts]. *)
Definition newest_draft_first (a b : Post.t) : Z := Post.updatedAt b - Post.updatedAt a.

(** [listDrafts]: the drafts in the order the list shows them,
    [BlogStore.getDrafts().sort(...)]; the array sorted is the fresh one
    [loadArray] parsed, so storage is not touched. *)
Definition listDrafts : M (list Post.t) :=
  let! ds := BlogStore_getDrafts in
  ret (Array_sort newest_draft_first ds).

(** [c] occurs in [s]. *)
Fixpoint occurs (c : ascii) (s : string) : bool :=
  match s with
  | EmptyString => false
  | String x rest => Ascii.eqb x c || occurs c rest
  end.

(** Order of the draft list: no draft is followed by a newer one. *)
Definition not_older_draft (a b : Post.t) : Prop := Post.updatedAt b <= Post.updatedAt a.

(** The repository answers all requests to come. *)
Definition network_up (w : World) : Prop := net (github w) = [].

(** The version tokens of the repository are not empty. *)
Definition tokens_present (w : World) : Prop :=
  forall p t sha, files (github w) !! p = Some (t, sha) -> sha ≠ "".

(** The repository after a write of [t] at [path] that went through: the
    lookup and the write are logged. *)
Definition put_done (path : string) (t : item json) (msg : string)
    (s : GhSettings) (r : Remote) : Remote :=
  let sha := snd <$> (files r !! path) in
  {| files := <[path := (t, "sha" +:+ toString36 (commits r))]> (files r);
     net := [];
     log := (log r ++ [GET_contents path;
                       PUT_contents path
                         {| message := msg; put_content := t;
                            put_branch := branch s; put_sha := sha |}])%list;
     commits := commits r + 1 |}.

(** What the handlers keep: each local collection holds an identifier at
    most once, and every index array of the repository is sorted newest
    first and lists an identifier at most once. *)
Definition well_kept (w : World) : Prop :=
  (forall key, NoDup (local_ids w key)) /\
  (forall (p : string) l sha,
     files (github w) !! p = Some (Json (JIndex l), sha) ->
     NoDup (Meta.id <$> l) /\ StronglySorted not_older l).

(** ** A slot of localStorage, whatever it holds *)

Module Raw.

(** A value [JSON.parse] returns.  Numbers are the integers; a fraction
    is truthy, as every number but zero is. *)
#[local] Unset Elimination Schemes.
Inductive value :=
  | Null
  | Bool (b : bool)
  | Number (n : Z)
  | Text (s : string)
  | Array (elements : list value)
  | Object (fields : list (string * value)).
#[local] Set Elimination Schemes.

(** The text of a slot: one that [JSON.parse] rejects, or the JSON text of a
    value. *)
Inductive text :=
  | NotJson (raw : string)
  | Stringified (v : value).

(** [JSON.parse(localStorage.getItem(key))]; a missing key is [null], which
    parses to [null]. *)
Definition JSON_parse (x : option text) : completion value :=
  match x with
  | None => Normal Null
  | Some (NotJson _) => Throw SyntaxError
  | Some (Stringified v) => Normal v
  end.

(** Truthiness, as [||] tests it: arrays and objects are truthy, also the
    empty ones. *)
Definition truthy (v : value) : bool :=
  match v with
  | Null => false
  | Bool b => b
  | Number n => negb (n =? 0)
  | Text s => negb (String.eqb s "")
  | Array _ => true
  | Object _ => true
  end.

(** [try { return JSON.parse(localStorage.getItem(key)) || []; } catch { return []; }] *)
Definition loadArray (x : option text) : completion value :=
  try_or
    match JSON_parse x with
    | Normal v => Normal (if truthy v then v else Array [])
    | Throw e => Throw e
    end
    (Normal (Array [])).

(** A record as [JSON.stringify] writes it and [JSON.parse] reads it back. *)
Definition of_post (p : Post.t) : value :=
  Object [("id", Text (Post.id p)); ("title", Text (Post.title p));
          ("content", Text (Post.content p)); ("cover", Text (Post.cover p));
          ("excerpt", Text (Post.excerpt p));
          ("updatedAt", Number (Post.updatedAt p));
          ("createdAt", Number (Post.createdAt p))].

(** The text of a slot of [LocalStorage]. *)
Definition of_slot (x : item (list Post.t)) : text :=
  match x with
  | Unparseable raw => NotJson raw
  | Json arr => Stringified (Array (of_post <$> arr))
  end.

End Raw.

(** ** Texts *)

(** Every character of the text is an ASCII character. *)
Fixpoint ascii_text (s : string) : bool :=
  match s with
  | EmptyString => true
  | String c rest => (code c <? 128)%N && ascii_text rest
  end.



(** ['A'.repeat(n)], for any character. *)
Fixpoint repeat_char (c : ascii) (n : nat) : string :=
  match n with
  | O => EmptyString
  | S n' => String c (repeat_char c n')
  end.

(** * Properties *)

(** ** The record store: [findIndex], [upsert], [removeById] *)

Section Arrays.
Context {A : Type} (p : A -> bool).

Lemma findIndex_lower (arr : list A) : -1 <= findIndex p arr.
Proof.
  induction arr as [|x rest IH]; simpl; [lia|].
  destruct (p x); [lia|].
  destruct (findIndex p rest <? 0) eqn:E; lia.
Qed.

Lemma findIndex_none (arr : list A) :
  findIndex p arr < 0 <-> forall x, x ∈ arr -> p x = false.
Proof.
  induction arr as [|x rest IH]; simpl.
  - split; [intros _ y Hy; inversion Hy | lia].
  - destruct (p x) eqn:Hx.
    + split; [lia|]. intros Hall. specialize (Hall x (list_elem_of_here _ _)). congruence.
    + pose proof (findIndex_lower rest).
      destruct (findIndex p rest <? 0) eqn:E.
      * apply Z.ltb_lt in E. split; [|lia].
        intros _ y Hy. apply elem_of_cons in Hy as [->|Hy]; [done|].
        by apply IH.
      * apply Z.ltb_ge in E. split; [lia|].
        intros Hall. exfalso.
        assert (findIndex p rest < 0); [|lia].
        apply IH. intros y Hy. apply Hall. by right.
Qed.

End Arrays.

Lemma same_id_true (item x : Post.t) : same_id item x = true <-> Post.id x = Post.id item.
Proof. unfold same_id. apply String.eqb_eq. Qed.

Lemma same_id_false (item x : Post.t) : same_id item x = false <-> Post.id x ≠ Post.id item.
Proof. unfold same_id. apply String.eqb_neq. Qed.

(** [upsert] walks to the first record with the identifier. *)
Lemma upsert_nil (item : Post.t) : upsert [] item = [item].
Proof. reflexivity. Qed.

Lemma upsert_cons (x : Post.t) (arr : list Post.t) (item : Post.t) :
  upsert (x :: arr) item = if same_id item x then item :: arr else x :: upsert arr item.
Proof.
  unfold upsert. simpl findIndex.
  destruct (same_id item x); [reflexivity|].
  pose proof (findIndex_lower (same_id item) arr) as Hlow.
  rewrite !Z.geb_leb.
  destruct (findIndex (same_id item) arr <? 0) eqn:E.
  - apply Z.ltb_lt in E.
    rewrite (proj2 (Z.leb_gt 0 (-1))) by lia.
    rewrite (proj2 (Z.leb_gt 0 _)) by lia. reflexivity.
  - apply Z.ltb_ge in E.
    rewrite !(proj2 (Z.leb_le 0 _)) by lia.
    rewrite Z2Nat.inj_add by lia. rewrite Nat.add_1_r. reflexivity.
Qed.

Lemma upsert_absent (arr : list Post.t) (item : Post.t) :
  Post.id item ∉ Post.id <$> arr -> upsert arr item = (arr ++ [item])%list.
Proof.
  induction arr as [|x arr IH]; intros Hno; [reflexivity|].
  rewrite upsert_cons. rewrite fmap_cons in Hno.
  apply not_elem_of_cons in Hno as [Hne Hno].
  replace (same_id item x) with false by (symmetry; apply same_id_false; congruence).
  rewrite IH by done. reflexivity.
Qed.

Lemma upsert_ids (arr : list Post.t) (item : Post.t) :
  Post.id <$> upsert arr item =
  if decide (Post.id item ∈ Post.id <$> arr) then Post.id <$> arr
  else ((Post.id <$> arr) ++ [Post.id item])%list.
Proof.
  induction arr as [|x arr IH].
  - rewrite upsert_nil. case_decide as H; [inversion H | reflexivity].
  - rewrite upsert_cons. destruct (same_id item x) eqn:E.
    + apply same_id_true in E. rewrite !fmap_cons, E.
      rewrite decide_True by left. reflexivity.
    + apply same_id_false in E. rewrite !fmap_cons, IH.
      destruct (decide (Post.id item ∈ Post.id <$> arr)) as [Hin|Hin].
      * rewrite decide_True by (by right). reflexivity.
      * rewrite decide_False; [reflexivity|].
        intros H. apply elem_of_cons in H as [H|H]; congruence.
Qed.

Lemma upsert_elem (arr : list Post.t) (item : Post.t) : item ∈ upsert arr item.
Proof.
  induction arr as [|x arr IH]; [rewrite upsert_nil; left|].
  rewrite upsert_cons. destruct (same_id item x); [left | by right].
Qed.

Lemma upsert_length (arr : list Post.t) (item : Post.t) :
  length (upsert arr item) =
  if decide (Post.id item ∈ Post.id <$> arr) then length arr else S (length arr).
Proof.
  rewrite <- (length_fmap Post.id (upsert arr item)), upsert_ids.
  case_decide; rewrite ?length_app, !length_fmap; simpl; lia.
Qed.

Lemma upsert_upsert (arr : list Post.t) (R R' : Post.t) :
  Post.id R' = Post.id R -> upsert (upsert arr R) R' = upsert arr R'.
Proof.
  intros Hid. induction arr as [|x arr IH].
  - rewrite !upsert_nil, upsert_cons.
    replace (same_id R' R) with true by (symmetry; apply same_id_true; congruence).
    reflexivity.
  - rewrite (upsert_cons x arr R), (upsert_cons x arr R').
    assert (same_id R' x = same_id R x) as -> by (unfold same_id; by rewrite Hid).
    destruct (same_id R x) eqn:E; rewrite upsert_cons.
    + replace (same_id R' R) with true by (symmetry; apply same_id_true; congruence).
      reflexivity.
    + assert (same_id R' x = false) as -> by (unfold same_id in *; by rewrite Hid).
      by rewrite IH.
Qed.

Lemma upsert_NoDup (arr : list Post.t) (item : Post.t) :
  NoDup (Post.id <$> arr) -> NoDup (Post.id <$> upsert arr item).
Proof.
  intros Hnd. rewrite upsert_ids. case_decide as Hin; [done|].
  apply NoDup_app. split_and!; [done| |apply NoDup_singleton].
  intros y Hy Hy'. apply list_elem_of_singleton in Hy'. congruence.
Qed.

Lemma removeById_NoDup (arr : list Post.t) (id : string) :
  NoDup (Post.id <$> arr) -> NoDup (Post.id <$> removeById arr id).
Proof.
  intros Hnd. eapply sublist_NoDup; [exact Hnd|].
  apply fmap_sublist, sublist_filter.
Qed.

(** With one record per identifier, a record is known by its identifier. *)
Lemma NoDup_ids_unique (arr : list Post.t) (x y : Post.t) :
  NoDup (Post.id <$> arr) -> x ∈ arr -> y ∈ arr -> Post.id x = Post.id y -> x = y.
Proof.
  induction arr as [|z arr IH]; intros Hnd Hx Hy Hid; [inversion Hx|].
  rewrite fmap_cons in Hnd. apply NoDup_cons in Hnd as [Hz Hnd].
  apply elem_of_cons in Hx as [->|Hx]; apply elem_of_cons in Hy as [->|Hy]; try done.
  - exfalso. apply Hz. rewrite Hid. by apply list_elem_of_fmap_2.
  - exfalso. apply Hz. rewrite <- Hid. by apply list_elem_of_fmap_2.
  - by apply IH.
Qed.

Lemma removeById_ids (arr : list Post.t) (id x : string) :
  x ∈ Post.id <$> removeById arr id <-> x ∈ Post.id <$> arr /\ x ≠ id.
Proof.
  unfold removeById. rewrite !list_elem_of_fmap. split.
  - intros (y & -> & Hy). apply list_elem_of_filter in Hy as [Hne Hy]. eauto.
  - intros [(y & -> & Hy) Hne]. exists y. split; [done|]. by apply list_elem_of_filter.
Qed.

Lemma upsert_ids_elem (arr : list Post.t) (item : Post.t) (x : string) :
  x ∈ Post.id <$> upsert arr item <-> x ∈ Post.id <$> arr \/ x = Post.id item.
Proof.
  rewrite upsert_ids. case_decide as Hin.
  - split; [by left|]. intros [H| ->]; done.
  - rewrite elem_of_app, list_elem_of_singleton. done.
Qed.

(** ** [Array.prototype.sort] and the index array *)

Lemma sort_insert_perm {A} (cmp : A -> A -> Z) (x : A) (l : list A) :
  sort_insert cmp x l ≡ₚ x :: l.
Proof.
  induction l as [|y l IH]; simpl; [done|].
  destruct (cmp x y >? 0); [|done].
  rewrite IH. apply Permutation_swap.
Qed.

Lemma Array_sort_perm {A} (cmp : A -> A -> Z) (arr : list A) : Array_sort cmp arr ≡ₚ arr.
Proof.
  induction arr as [|x arr IH]; simpl; [done|].
  rewrite sort_insert_perm. by rewrite IH.
Qed.

Lemma not_older_trans (a b c : Meta.t) : not_older a b -> not_older b c -> not_older a c.
Proof. unfold not_older. lia. Qed.

Lemma sort_insert_sorted (x : Meta.t) (l : list Meta.t) :
  StronglySorted not_older l -> StronglySorted not_older (sort_insert newest_first x l).
Proof.
  induction 1 as [|y l Hs IH Hall]; simpl.
  - repeat constructor.
  - destruct (newest_first x y >? 0) eqn:E.
    + apply Z.gtb_lt in E. unfold newest_first in E.
      constructor; [done|].
      rewrite Forall_forall. intros z Hz.
      rewrite sort_insert_perm in Hz. apply elem_of_cons in Hz as [->|Hz].
      * unfold not_older. lia.
      * rewrite Forall_forall in Hall. by apply Hall.
    + assert (not_older x y) as Hxy.
      { unfold not_older, newest_first in *.
        destruct (Z.gtb_spec (updatedAt_or_0 y - updatedAt_or_0 x) 0); [done | lia]. }
      constructor; [by constructor|].
      constructor; [done|].
      eapply Forall_impl; [exact Hall|]. intros z Hz. by eapply not_older_trans.
Qed.

Lemma Array_sort_sorted (arr : list Meta.t) :
  StronglySorted not_older (Array_sort newest_first arr).
Proof.
  induction arr as [|x arr IH]; simpl; [constructor|].
  by apply sort_insert_sorted.
Qed.

Lemma StronglySorted_lookup {A} (R : relation A) (l : list A) (i j : nat) (x y : A) :
  StronglySorted R l -> l !! i = Some x -> l !! j = Some y -> (i < j)%nat -> R x y.
Proof.
  intros Hs. revert i j. induction Hs as [|z l Hs IH Hall]; intros i j Hi Hj Hlt.
  - by rewrite lookup_nil in Hi.
  - destruct j as [|j]; [lia|]. simpl in Hj.
    destruct i as [|i]; simpl in Hi.
    + injection Hi as ->. rewrite Forall_forall in Hall.
      apply Hall. by eapply list_elem_of_lookup_2.
    + eapply IH; eauto. lia.
Qed.

Lemma updated_index_perm (existing : list Meta.t) (meta : Meta.t) :
  updated_index existing meta ≡ₚ
  (filter (fun x => Meta.id x ≠ Meta.id meta) existing ++ [meta])%list.
Proof. unfold updated_index. apply Array_sort_perm. Qed.

Lemma updated_index_elem (existing : list Meta.t) (meta x : Meta.t) :
  x ∈ updated_index existing meta <->
  (x ∈ existing /\ Meta.id x ≠ Meta.id meta) \/ x = meta.
Proof.
  rewrite updated_index_perm, elem_of_app, list_elem_of_filter, list_elem_of_singleton.
  tauto.
Qed.

(** The entry written is the only one with its identifier. *)
Lemma updated_index_one (existing : list Meta.t) (meta : Meta.t) :
  filter (fun x => Meta.id x = Meta.id meta) (updated_index existing meta) = [meta].
Proof.
  apply Permutation_singleton_r.
  rewrite updated_index_perm, filter_app.
  rewrite (filter_cons_True _ meta []) by done. rewrite filter_nil.
  replace (filter (fun x => Meta.id x = Meta.id meta)
             (filter (fun x => Meta.id x ≠ Meta.id meta) existing)) with (@nil Meta.t); [done|].
  symmetry. induction existing as [|y l IH]; [done|].
  rewrite (filter_cons _ y l). case_decide as Hy; [|done].
  rewrite filter_cons_False by (intros ?; done). done.
Qed.

Lemma updated_index_NoDup (existing : list Meta.t) (meta : Meta.t) :
  NoDup (Meta.id <$> existing) -> NoDup (Meta.id <$> updated_index existing meta).
Proof.
  intros Hnd. rewrite updated_index_perm, fmap_app. apply NoDup_app. split_and!.
  - eapply sublist_NoDup; [exact Hnd|]. apply fmap_sublist, sublist_filter.
  - intros y Hy Hy'. apply list_elem_of_singleton in Hy'. subst y.
    apply list_elem_of_fmap in Hy as (z & Hz & Hin).
    apply list_elem_of_filter in Hin as [Hne _]. congruence.
  - apply NoDup_singleton.
Qed.

(** An entry without [updatedAt] counts as time 0: every entry with a
    positive time stands before it. *)
Lemma undated_after_dated (l : list Meta.t) (i j : nat) (x y : Meta.t) :
  StronglySorted not_older l ->
  l !! i = Some x -> l !! j = Some y ->
  Meta.updatedAt x = None -> 0 < updatedAt_or_0 y -> (j < i)%nat.
Proof.
  intros Hs Hi Hj Hx Hy.
  assert (updatedAt_or_0 x = 0) as Hx0 by (unfold updatedAt_or_0; by rewrite Hx).
  destruct (Nat.lt_trichotomy i j) as [Hlt|[->|Hgt]]; [| |done].
  - pose proof (StronglySorted_lookup _ _ _ _ _ _ Hs Hi Hj Hlt) as Hxy.
    unfold not_older in Hxy. lia.
  - rewrite Hi in Hj. injection Hj as ->. lia.
Qed.

(** ** Running the store and the client *)

Lemma loadArray_stored (ls : LocalStorage) (key : collection) :
  loadArray ls key = Normal (stored ls key).
Proof.
  unfold loadArray, stored. by destruct (getItem ls key) as [[raw|arr]|].
Qed.

Lemma getGhSettings_run (w : World) : getGhSettings w = (Normal (settings w), w).
Proof.
  unfold getGhSettings, lift, settings.
  by destruct (ls_gh (localStorage w)) as [[raw|s]|].
Qed.

Lemma hasGhConfig_run (w : World) : hasGhConfig w = (Normal (all_four (settings w)), w).
Proof. unfold hasGhConfig, bind. by rewrite getGhSettings_run. Qed.

Lemma stored_saveArray (ls : LocalStorage) (key key' : collection) (arr : list Post.t) :
  stored (saveArray ls key arr) key' = if decide (key = key') then arr else stored ls key'.
Proof. by destruct key, key'. Qed.

Lemma BlogStore_getDrafts_run (w : World) :
  BlogStore_getDrafts w = (Normal (stored (localStorage w) drafts), w).
Proof. unfold BlogStore_getDrafts, lift. by rewrite loadArray_stored. Qed.

Lemma BlogStore_getPosts_run (w : World) :
  BlogStore_getPosts w = (Normal (stored (localStorage w) posts), w).
Proof. unfold BlogStore_getPosts, lift. by rewrite loadArray_stored. Qed.

Lemma BlogStore_deleteDraft_run (id : string) (w : World) :
  BlogStore_deleteDraft id w =
  (Normal tt,
   with_localStorage w
     (saveArray (localStorage w) drafts (removeById (stored (localStorage w) drafts) id))).
Proof. unfold BlogStore_deleteDraft, bind. by rewrite BlogStore_getDrafts_run. Qed.

Lemma BlogStore_saveDraft_run (d : Post.t) (w : World) :
  BlogStore_saveDraft d w =
  (Normal tt,
   with_localStorage w
     (saveArray (localStorage w) drafts (upsert (stored (localStorage w) drafts) d))).
Proof. unfold BlogStore_saveDraft, bind. by rewrite BlogStore_getDrafts_run. Qed.

Lemma BlogStore_publish_run (d : Post.t) (w : World) :
  BlogStore_publish d w =
  (Normal tt,
   with_localStorage w
     (saveArray (localStorage w) posts (upsert (stored (localStorage w) posts) d))).
Proof. unfold BlogStore_publish, bind. by rewrite BlogStore_getPosts_run. Qed.

Lemma BlogStore_getPostById_run (id : option string) (w : World) :
  BlogStore_getPostById id w = (Normal (find (has_id id) (stored (localStorage w) posts)), w).
Proof. unfold BlogStore_getPostById, bind. by rewrite BlogStore_getPosts_run. Qed.

(** *** The repository only grows *)

Lemma extends_refl (r : Remote) : extends r r.
Proof. split; [exists []; by rewrite app_nil_r | done]. Qed.

Lemma extends_trans (r1 r2 r3 : Remote) : extends r1 r2 -> extends r2 r3 -> extends r1 r3.
Proof.
  intros [[m1 H1] F1] [[m2 H2] F2]. split; [|by eauto].
  exists (m1 ++ m2)%list. by rewrite H2, H1, app_assoc.
Qed.

Lemma serve_log (req : request) (r : Remote) : log (snd (serve req r)) = log r.
Proof.
  destruct req as [path|path body|path]; simpl.
  - by destruct (files r !! path) as [[? ?]|].
  - by case_decide.
  - by destruct (files r !! path) as [[? ?]|].
Qed.

Lemma serve_net (req : request) (r : Remote) : net (snd (serve req r)) = net r.
Proof.
  destruct req as [path|path body|path]; simpl.
  - by destruct (files r !! path) as [[? ?]|].
  - by case_decide.
  - by destruct (files r !! path) as [[? ?]|].
Qed.

Lemma serve_files (req : request) (r : Remote) (p : string) :
  is_Some (files r !! p) -> is_Some (files (snd (serve req r)) !! p).
Proof.
  intros Hp. destruct req as [path|path body|path]; simpl.
  - by destruct (files r !! path) as [[? ?]|].
  - case_decide; [|done]. simpl. apply lookup_insert_is_Some'. by right.
  - by destruct (files r !! path) as [[? ?]|].
Qed.

Lemma fetch_world (req : request) (w : World) :
  exists r', snd (fetch req w) = with_github w r' /\
    log r' = (log (github w) ++ [req])%list /\
    net r' = tail (net (github w)) /\
    (forall p : string, is_Some (files (github w) !! p) -> is_Some (files r' !! p)).
Proof.
  unfold fetch.
  set (logged := fun n => {| files := files (github w); net := n;
                             log := (log (github w) ++ [req])%list;
                             commits := commits (github w) |}).
  assert (forall n, exists r', snd (let '(res, r') := serve req (logged n) in
                                     (Normal res, with_github w r')) = with_github w r' /\
            log r' = (log (github w) ++ [req])%list /\ net r' = n /\
            (forall p : string, is_Some (files (github w) !! p) -> is_Some (files r' !! p)))
    as Hserve.
  { intros n. pose proof (serve_log req (logged n)) as Hl.
    pose proof (serve_net req (logged n)) as Hn.
    pose proof (serve_files req (logged n)) as Hf.
    destruct (serve req (logged n)) as [res r']. simpl in *.
    exists r'. split_and!; [done|done|done|]. intros p Hp. by apply Hf. }
  destruct (net (github w)) as [|[| |f] n]; simpl.
  - apply Hserve.
  - apply Hserve.
  - exists (logged n). by split_and!.
  - exists (logged n). by split_and!.
Qed.

Lemma github_only_fetch (req : request) : github_only (fetch req).
Proof.
  intros w. destruct (fetch_world req w) as (r' & Hw & Hl & _ & Hf).
  exists r'. split; [done|]. split; [by exists [req] | done].
Qed.

Lemma github_only_ret {A} (a : A) : github_only (ret a).
Proof. intros w. exists (github w). split; [by destruct w | apply extends_refl]. Qed.

Lemma github_only_throw {A} (e : error) : github_only (@throw A e).
Proof. intros w. exists (github w). split; [by destruct w | apply extends_refl]. Qed.

Lemma github_only_lift {A} (f : World -> completion A) : github_only (lift f).
Proof. intros w. exists (github w). split; [by destruct w | apply extends_refl]. Qed.

Lemma github_only_bind {A B} (m : M A) (k : A -> M B) :
  github_only m -> (forall a, github_only (k a)) -> github_only (bind m k).
Proof.
  intros Hm Hk w. unfold bind.
  destruct (Hm w) as (r1 & H1 & E1). destruct (m w) as [[a|e] w1]; simpl in H1; subst w1.
  - destruct (Hk a (with_github w r1)) as (r2 & H2 & E2).
    exists r2. split; [by rewrite H2 | by eapply extends_trans].
  - by exists r1.
Qed.

Lemma github_only_try_catch {A} (m : M A) (h : error -> M A) :
  github_only m -> (forall e, github_only (h e)) -> github_only (try_catch m h).
Proof.
  intros Hm Hh w. unfold try_catch.
  destruct (Hm w) as (r1 & H1 & E1). destruct (m w) as [[a|e] w1]; simpl in H1; subst w1.
  - by exists r1.
  - destruct (Hh e (with_github w r1)) as (r2 & H2 & E2).
    exists r2. split; [by rewrite H2 | by eapply extends_trans].
Qed.

Lemma github_only_getGhSettings : github_only getGhSettings.
Proof. apply github_only_lift. Qed.

Create HintDb client discriminated.

Ltac github_only :=
  repeat first
    [ apply github_only_getGhSettings
    | apply github_only_fetch
    | apply github_only_ret
    | apply github_only_throw
    | apply github_only_lift
    | apply github_only_bind; [|intros ?]
    | apply github_only_try_catch; [|intros ?]
    | match goal with
      | |- github_only (match ?x with _ => _ end) => destruct x
      | |- github_only (if ?x then _ else _) => destruct x
      end ];
  auto with client.

Lemma github_only_request (req : request) : github_only (GitHubClient_request req).
Proof. unfold GitHubClient_request. github_only. Qed.
#[local] Hint Resolve github_only_request : client.

Lemma github_only_getContentSha (path : string) : github_only (getContentSha path).
Proof. unfold getContentSha. github_only. Qed.
#[local] Hint Resolve github_only_getContentSha : client.

Lemma github_only_putFile (path : string) (t : item json) (msg : string) :
  github_only (putFile path t msg).
Proof. unfold putFile. github_only. Qed.
#[local] Hint Resolve github_only_putFile : client.

Lemma github_only_readRaw (path : string) : github_only (readRaw path).
Proof. unfold readRaw. github_only. Qed.
#[local] Hint Resolve github_only_readRaw : client.

Lemma github_only_readJson (path : string) : github_only (readJson path).
Proof. unfold readJson. github_only. Qed.
#[local] Hint Resolve github_only_readJson : client.

Lemma github_only_upsertIndex (kind : collection) (meta : Meta.t) :
  github_only (upsertIndex kind meta).
Proof. unfold upsertIndex. github_only. Qed.
#[local] Hint Resolve github_only_upsertIndex : client.

Lemma github_only_saveToGitHub (kind : collection) (d : Post.t) :
  github_only (saveToGitHub kind d).
Proof. unfold saveToGitHub. github_only. Qed.
#[local] Hint Resolve github_only_saveToGitHub : client.

(** ** The click handlers *)

Lemma gatherPostData_run (random : string) (now : Z) (w : World) :
  gatherPostData random now w = (Normal (gathered random now w), w).
Proof. reflexivity. Qed.

Arguments gathered : simpl never.

Lemma gathered_id (random : string) (now : Z) (w : World) :
  Post.id (gathered random now w) = draft_id (currentDraftId (editor w)) random now.
Proof. reflexivity. Qed.

Lemma publish_click_run (random : string) (now : Z) (w : World) :
  publish_click random now w =
  let d := gathered random now w in
  if invalid d then alert "Please add a title and some content." w
  else if all_four (settings w) then
    try_catch
      (saveToGitHub posts d ;;;
       BlogStore_deleteDraft (Post.id d) ;;;
       navigate (post_url (Post.id d)))
      (fun _ => alert "Failed publishing to GitHub. Check settings/token.") w
  else
    (BlogStore_publish d ;;;
     BlogStore_deleteDraft (Post.id d) ;;;
     navigate (post_url (Post.id d))) w.
Proof.
  unfold publish_click. unfold bind at 1. rewrite gatherPostData_run. cbv zeta.
  destruct (invalid (gathered random now w)); [reflexivity|].
  unfold bind at 1. rewrite hasGhConfig_run.
  by destruct (all_four (settings w)).
Qed.

(** The three ways a click on [publish] ends. *)
Lemma publish_click_world (random : string) (now : Z) (w : World) :
  let d := gathered random now w in
  let w' := after (publish_click random now) w in
  let ls := localStorage w in
  let deleted := saveArray ls drafts (removeById (stored ls drafts) (Post.id d)) in
  let r' := github (after (saveToGitHub posts d) w) in
  (invalid d = true /\
   w' = with_ui w (ui w ++ [Alert "Please add a title and some content."])%list)
  \/
  (invalid d = false /\ all_four (settings w) = true /\
   extends (github w) r' /\
   ((result (saveToGitHub posts d) w = Normal tt /\
     w' = with_ui (with_localStorage (with_github w r') deleted)
            (ui w ++ [Navigate (post_url (Post.id d))])%list)
    \/
    ((exists e, result (saveToGitHub posts d) w = Throw e) /\
     w' = with_ui (with_github w r')
            (ui w ++ [Alert "Failed publishing to GitHub. Check settings/token."])%list)))
  \/
  (invalid d = false /\ all_four (settings w) = false /\
   w' = with_ui
          (with_localStorage w
             (saveArray (saveArray ls posts (upsert (stored ls posts) d)) drafts
                (removeById (stored ls drafts) (Post.id d))))
          (ui w ++ [Navigate (post_url (Post.id d))])%list).
Proof.
  intros d w' ls deleted r'. subst w' r'. unfold after. rewrite publish_click_run.
  fold d. cbv zeta.
  destruct (invalid d) eqn:Hinv; [left; by split|].
  destruct (all_four (settings w)) eqn:Hcfg; right; [left|right].
  - split; [done|]. split; [done|].
    unfold try_catch, bind, result.
    destruct (github_only_saveToGitHub posts d w) as (r' & Hw & Hext).
    destruct (saveToGitHub posts d w) as [[[]|e] w1]; simpl in Hw; subst w1;
      (split; [done|]).
    + left. split; [done|]. rewrite BlogStore_deleteDraft_run. by destruct w.
    + right. split; [by exists e|]. by destruct w.
  - split; [done|]. split; [done|].
    unfold bind. rewrite BlogStore_publish_run, BlogStore_deleteDraft_run.
    simpl. unfold ls. by destruct w as [[d0 p0 g0] r0 e0 u0].
Qed.

Lemma saveDraftGh_click_world (random : string) (now : Z) (w : World) :
  let d := gathered random now w in
  let w' := after (saveDraftGh_click random now) w in
  exists r' msg,
    extends (github w) r' /\
    w' = with_ui (with_github w r') (ui w ++ [Alert msg])%list /\
    (all_four (settings w) = false -> r' = github w) /\
    (all_four (settings w) = true -> r' = github (after (saveToGitHub drafts d) w)).
Proof.
  cbv zeta. unfold after, saveDraftGh_click. unfold bind at 1. rewrite hasGhConfig_run.
  destruct (all_four (settings w)) eqn:Hcfg; simpl.
  - unfold bind at 1. rewrite gatherPostData_run.
    unfold try_catch, bind.
    destruct (github_only_saveToGitHub drafts (gathered random now w) w) as (r' & Hw & Hext).
    destruct (saveToGitHub drafts (gathered random now w) w) as [[[]|e] w1];
      simpl in Hw; subst w1; eexists r', _; (split; [exact Hext|]);
      (split; [simpl; reflexivity|]); (split; [congruence|done]).
  - eexists (github w), _. split; [apply extends_refl|].
    split; [destruct w; simpl; reflexivity|]. split; [done|congruence].
Qed.

Lemma saveDraftLocal_click_world (random : string) (now : Z) (w : World) :
  let d := gathered random now w in
  let w' := after (saveDraftLocal_click random now) w in
  localStorage w' =
    saveArray (localStorage w) drafts (upsert (stored (localStorage w) drafts) d) /\
  github w' = github w /\
  currentDraftId (editor w') = Some (Post.id d).
Proof.
  cbv zeta. unfold after, saveDraftLocal_click, bind.
  rewrite gatherPostData_run, BlogStore_saveDraft_run. by split_and!.
Qed.

(** ** The client, request by request *)

Lemma refused_not_ok (f : http_failure) (d : payload) :
  ok {| status := status_of f; data := d |} = false.
Proof. by destruct f. Qed.

Lemma fetch_GET_contents (path : string) (w : World) :
  fetch (GET_contents path) w =
  (match net (github w) with
   | Down :: _ => Throw NetworkError
   | Refuse f :: _ => Normal {| status := status_of f; data := NoData |}
   | _ =>
       Normal match files (github w) !! path with
              | Some (_, sha) => {| status := 200; data := Contents sha |}
              | None => {| status := status_of NotFound; data := NoData |}
              end
   end, with_github w (sent (GET_contents path) (github w))).
Proof.
  unfold fetch, sent.
  destruct (net (github w)) as [|[| |f] n]; simpl; try reflexivity;
    by destruct (files (github w) !! path) as [[t sha]|].
Qed.

Lemma fetch_GET_raw (path : string) (w : World) :
  fetch (GET_raw path) w =
  (match net (github w) with
   | Down :: _ => Throw NetworkError
   | Refuse f :: _ => Normal {| status := status_of f; data := NoData |}
   | _ =>
       Normal match files (github w) !! path with
              | Some (t, _) => {| status := 200; data := Text t |}
              | None => {| status := status_of NotFound; data := NoData |}
              end
   end, with_github w (sent (GET_raw path) (github w))).
Proof.
  unfold fetch, sent.
  destruct (net (github w)) as [|[| |f] n]; simpl; try reflexivity;
    by destruct (files (github w) !! path) as [[t sha]|].
Qed.

Lemma request_unconfigured (req : request) (w : World) :
  settings w = None -> GitHubClient_request req w = (Throw TypeError, w).
Proof. intros Hs. unfold GitHubClient_request, bind. by rewrite getGhSettings_run, Hs. Qed.

Lemma request_GET_contents (path : string) (w : World) (s : GhSettings) :
  settings w = Some s ->
  GitHubClient_request (GET_contents path) w =
  (match net (github w) with
   | Down :: _ => Throw NetworkError
   | Refuse f :: _ => Throw (HttpError (status_of f))
   | _ =>
       match files (github w) !! path with
       | Some (_, sha) => Normal (Contents sha)
       | None => Throw (HttpError (status_of NotFound))
       end
   end, with_github w (sent (GET_contents path) (github w))).
Proof.
  intros Hs. unfold GitHubClient_request, bind.
  rewrite getGhSettings_run, Hs, fetch_GET_contents.
  destruct (net (github w)) as [|[| |f] n]; try reflexivity;
    try (by destruct (files (github w) !! path) as [[t sha]|]).
  by rewrite refused_not_ok.
Qed.

Lemma getContentSha_run (path : string) (w : World) (s : GhSettings) :
  settings w = Some s ->
  getContentSha path w =
  (Normal (looked_up path (github w)), with_github w (sent (GET_contents path) (github w))).
Proof.
  intros Hs. unfold getContentSha, try_catch, bind.
  rewrite (request_GET_contents _ _ _ Hs). unfold looked_up, delivered.
  destruct (net (github w)) as [|[| |f] n]; try reflexivity;
    by destruct (files (github w) !! path) as [[t sha]|].
Qed.

Lemma getContentSha_unconfigured (path : string) (w : World) :
  settings w = None -> getContentSha path w = (Normal None, w).
Proof.
  intros Hs. unfold getContentSha, try_catch, bind. by rewrite request_unconfigured.
Qed.

Lemma settings_with_github (w : World) (r : Remote) : settings (with_github w r) = settings w.
Proof. reflexivity. Qed.

Lemma putFile_run (path : string) (t : item json) (msg : string) (w : World) (s : GhSettings) :
  settings w = Some s ->
  putFile path t msg w =
  GitHubClient_request
    (PUT_contents path
       {| message := msg; put_content := t; put_branch := branch s;
          put_sha := looked_up path (github w) |})
    (with_github w (sent (GET_contents path) (github w))).
Proof.
  intros Hs. unfold putFile. unfold bind at 1. rewrite getGhSettings_run, Hs.
  unfold bind at 1. by rewrite (getContentSha_run _ _ _ Hs).
Qed.

Lemma putFile_unconfigured (path : string) (t : item json) (msg : string) (w : World) :
  settings w = None -> putFile path t msg w = (Throw TypeError, w).
Proof.
  intros Hs. unfold putFile, bind.
  by rewrite getGhSettings_run, Hs, getContentSha_unconfigured.
Qed.

(** A [PUT] logs itself, whatever becomes of it. *)
Lemma request_PUT_log (path : string) (body : put_body) (w : World) (s : GhSettings) :
  settings w = Some s ->
  log (github (after (GitHubClient_request (PUT_contents path body)) w)) =
  (log (github w) ++ [PUT_contents path body])%list.
Proof.
  intros Hs. unfold after, GitHubClient_request, bind. rewrite getGhSettings_run, Hs.
  destruct (fetch_world (PUT_contents path body) w) as (r' & Hw & Hl & _).
  destruct (fetch (PUT_contents path body) w) as [[res|e] w1]; simpl in Hw; subst w1.
  - by destruct (ok res).
  - done.
Qed.

(** A [PUT] that returns has written the file. *)
Lemma request_PUT_normal (path : string) (body : put_body) (w : World) (d : payload) :
  result (GitHubClient_request (PUT_contents path body)) w = Normal d ->
  exists sha,
    files (github (after (GitHubClient_request (PUT_contents path body)) w)) !! path
    = Some (put_content body, sha).
Proof.
  unfold result, after, GitHubClient_request, bind. rewrite getGhSettings_run.
  destruct (settings w) as [s|]; [|done].
  unfold fetch.
  set (logged := fun n => {| files := files (github w); net := n;
                             log := (log (github w) ++ [PUT_contents path body])%list;
                             commits := commits (github w) |}).
  assert (forall n d,
    fst (let '(c, w') := (let '(res, r') := serve (PUT_contents path body) (logged n) in
                          (Normal res, with_github w r')) in
         match c with
         | Normal a => (if ok a then ret (data a) else throw (HttpError (status a))) w'
         | Throw e => (Throw e, w')
         end) = Normal d ->
    exists sha,
      files (github (snd (let '(c, w') := (let '(res, r') := serve (PUT_contents path body) (logged n) in
                          (Normal res, with_github w r')) in
         match c with
         | Normal a => (if ok a then ret (data a) else throw (HttpError (status a))) w'
         | Throw e => (Throw e, w')
         end))) !! path = Some (put_content body, sha)) as Hserve.
  { intros n d'. simpl. case_decide as Hsha; simpl.
    - intros _. destruct (snd <$> files (github w) !! path);
        simpl; eexists; apply lookup_insert_eq.
    - done. }
  destruct (net (github w)) as [|[| |f] n]; simpl.
  - apply Hserve.
  - apply Hserve.
  - done.
  - by rewrite refused_not_ok.
Qed.

Lemma putFile_normal (path : string) (t : item json) (msg : string) (w : World) (d : payload) :
  result (putFile path t msg) w = Normal d ->
  exists sha, files (github (after (putFile path t msg) w)) !! path = Some (t, sha).
Proof.
  unfold result, after. destruct (settings w) as [s|] eqn:Hs.
  - rewrite (putFile_run _ _ _ _ _ Hs). intros Hd.
    by apply request_PUT_normal in Hd.
  - by rewrite putFile_unconfigured.
Qed.

Lemma readRaw_run (path : string) (w : World) (s : GhSettings) :
  settings w = Some s ->
  readRaw path w = (raw_read path (github w), with_github w (sent (GET_raw path) (github w))).
Proof.
  intros Hs. unfold readRaw, bind, raw_read.
  rewrite getGhSettings_run, Hs, fetch_GET_raw.
  destruct (net (github w)) as [|[| |f] n]; try reflexivity;
    try (by destruct (files (github w) !! path) as [[t sha]|]).
  by rewrite refused_not_ok.
Qed.

Lemma readRaw_unconfigured (path : string) (w : World) :
  settings w = None -> readRaw path w = (Throw TypeError, w).
Proof. intros Hs. unfold readRaw, bind. by rewrite getGhSettings_run, Hs. Qed.

Lemma readJson_run (path : string) (w : World) (s : GhSettings) :
  settings w = Some s ->
  readJson path w =
  (Normal match raw_read path (github w) with
          | Normal (Json v) => Some v
          | _ => None
          end,
   with_github w (sent (GET_raw path) (github w))).
Proof.
  intros Hs. unfold readJson, bind, try_catch. rewrite (readRaw_run _ _ _ Hs).
  destruct (raw_read path (github w)) as [[raw|v]|e]; simpl; try reflexivity.
  unfold empty_text, truthy. by destruct (String.eqb raw "").
Qed.

Lemma readJson_unconfigured (path : string) (w : World) :
  settings w = None -> readJson path w = (Normal None, w).
Proof.
  intros Hs. unfold readJson, bind, try_catch. by rewrite readRaw_unconfigured.
Qed.

Lemma upsertIndex_run (kind : collection) (meta : Meta.t) (w : World) (s : GhSettings) :
  settings w = Some s ->
  upsertIndex kind meta w =
  let w1 := with_github w (sent (GET_raw (index_path kind)) (github w)) in
  match raw_read (index_path kind) (github w) with
  | Normal (Json (JPost _)) => (Throw TypeError, w1)
  | Normal (Json (JIndex l)) =>
      (putFile (index_path kind) (Json (JIndex (updated_index l meta)))
         (index_message kind meta) ;;; ret tt) w1
  | _ =>
      (putFile (index_path kind) (Json (JIndex (updated_index [] meta)))
         (index_message kind meta) ;;; ret tt) w1
  end.
Proof.
  intros Hs. unfold upsertIndex. unfold bind at 1. rewrite (readJson_run _ _ _ Hs).
  by destruct (raw_read (index_path kind) (github w)) as [[raw|[r|l]]|e].
Qed.

Lemma existing_index_run (kind : collection) (w : World) (s : GhSettings) :
  settings w = Some s ->
  existing_index kind w =
  match raw_read (index_path kind) (github w) with
  | Normal (Json (JIndex l)) => l
  | _ => []
  end.
Proof.
  intros Hs. unfold existing_index, result. rewrite (readJson_run _ _ _ Hs).
  by destruct (raw_read (index_path kind) (github w)) as [[raw|[r|l]]|e].
Qed.

Lemma putFile_then_written (path : string) (t : item json) (msg : string) (w : World) :
  result (putFile path t msg ;;; ret tt) w = Normal tt ->
  exists sha, files (github (after (putFile path t msg ;;; ret tt) w)) !! path = Some (t, sha).
Proof.
  unfold result, after, bind.
  pose proof (putFile_normal path t msg w) as Hput. unfold result, after in Hput.
  destruct (putFile path t msg w) as [[d|e] w1]; simpl in *; [|done].
  intros _. by apply (Hput d).
Qed.

(** What [upsertIndex] returns normally, it has written. *)
Lemma upsertIndex_written (kind : collection) (meta : Meta.t) (w : World) :
  result (upsertIndex kind meta) w = Normal tt ->
  index_file kind (after (upsertIndex kind meta) w)
  = Some (updated_index (existing_index kind w) meta).
Proof.
  destruct (settings w) as [s|] eqn:Hs.
  - unfold result, after, index_file.
    rewrite (upsertIndex_run _ _ _ _ Hs), (existing_index_run _ _ _ Hs). cbv zeta.
    destruct (raw_read (index_path kind) (github w)) as [[raw|[r|l]]|e]; try done;
      intros Hn; apply putFile_then_written in Hn as [sha Hsha];
      unfold after in Hsha; by rewrite Hsha.
  - unfold result, upsertIndex, bind.
    by rewrite (readJson_unconfigured _ _ Hs), putFile_unconfigured.
Qed.

(** With the network up and the settings in place, [upsertIndex] returns,
    having read the array the index file holds. *)
Lemma upsertIndex_completes (kind : collection) (meta : Meta.t) (w : World)
    (s : GhSettings) (l : list Meta.t) :
  settings w = Some s ->
  net (github w) = [] ->
  (forall t sha, files (github w) !! index_path kind = Some (t, sha) -> sha ≠ "") ->
  index_read (files (github w) !! index_path kind) = Some l ->
  result (upsertIndex kind meta) w = Normal tt /\ existing_index kind w = l.
Proof.
  intros Hs Hnet Hsha Hread.
  unfold result. rewrite (upsertIndex_run _ _ _ _ Hs), (existing_index_run _ _ _ Hs).
  cbv zeta. unfold raw_read. rewrite Hnet.
  set (w1 := with_github w (sent (GET_raw (index_path kind)) (github w))).
  assert (forall t msg, fst ((putFile (index_path kind) t msg ;;; ret tt) w1) = Normal tt)
    as Hput.
  { intros t msg. unfold bind. rewrite (putFile_run _ _ _ _ s) by done.
    unfold GitHubClient_request, bind. rewrite getGhSettings_run.
    rewrite settings_with_github. change (settings w1) with (settings w). rewrite Hs.
    unfold fetch. simpl. rewrite Hnet. simpl.
    unfold looked_up, delivered. simpl. rewrite Hnet.
    destruct (files (github w) !! index_path kind) as [[t0 sha]|] eqn:Hf; simpl.
    - assert (truthy sha = true) as ->.
      { unfold truthy. apply negb_true_iff, String.eqb_neq. by eapply Hsha. }
      by destruct (decide (Some sha = Some sha)).
    - by destruct (decide (@None string = None)). }
  destruct (files (github w) !! index_path kind) as [[[raw|[r|l0]] sha]|] eqn:Hf;
    simpl in Hread; try done; injection Hread as <-; by rewrite Hput.
Qed.

(** * The claims *)

(** ** C8: [upsert] *)

(** C8, as stated, fails: [upsert] overwrites the first record with the
    identifier only, so a collection that already holds the identifier
    twice keeps the second copy. *)
Lemma upsert_keeps_second_copy :
  ~ (forall (c : list Post.t) (R R' : Post.t),
       Post.id R' = Post.id R ->
       length (filter (fun x => Post.id x = Post.id R) (upsert (upsert c R) R')) = 1%nat).
Proof.
  intros H.
  specialize (H [record "x" "old" 1; record "x" "older" 2]
                (record "x" "new" 3) (record "x" "newer" 4) eq_refl).
  vm_compute in H. discriminate H.
Qed.

(** C8, amended.  For every collection and all records [R], [R'] with the
    same identifier, upserting [R] and then [R'] is upserting [R'] alone:
    [R'] takes the slot of [R] and the collection does not grow.  When the
    collection holds each identifier at most once, so does the result, and
    [R'] is its only record with that identifier.  Upserting a record whose
    identifier is absent appends it. *)
Theorem upsert_replaces_by_id (c : list Post.t) (R R' : Post.t) :
  Post.id R' = Post.id R ->
  let c' := upsert (upsert c R) R' in
  c' = upsert c R' /\
  length c' = length (upsert c R) /\
  R' ∈ c' /\
  (NoDup (Post.id <$> c) ->
   NoDup (Post.id <$> c') /\
   forall x, x ∈ c' -> Post.id x = Post.id R -> x = R') /\
  (Post.id R ∉ Post.id <$> c -> upsert c R = (c ++ [R])%list).
Proof.
  intros Hid c'. subst c'. rewrite (upsert_upsert _ _ _ Hid). split_and!.
  - done.
  - rewrite !upsert_length, Hid. done.
  - apply upsert_elem.
  - intros Hnd. split; [by apply upsert_NoDup|].
    intros x Hx Hxid. eapply NoDup_ids_unique; [by apply (upsert_NoDup c R')|done| |congruence].
    apply upsert_elem.
  - apply upsert_absent.
Qed.

Lemma upsert_replaces_by_id_witness :
  Post.id (record "a" "second" 2) = Post.id (record "a" "first" 1) /\
  upsert (upsert [record "b" "other" 0] (record "a" "first" 1)) (record "a" "second" 2)
  = [record "b" "other" 0; record "a" "second" 2].
Proof.
  split; [reflexivity|].
  destruct (upsert_replaces_by_id [record "b" "other" 0]
              (record "a" "first" 1) (record "a" "second" 2) eq_refl) as [H _].
  rewrite H. reflexivity.
Defined.

(** ** C9: reading a collection *)

Lemma Raw_loadArray_slot (ls : LocalStorage) (key : collection) :
  Raw.loadArray (Raw.of_slot <$> getItem ls key) =
  Normal (Raw.Array (Raw.of_post <$> stored ls key)).
Proof.
  unfold stored. by destruct (getItem ls key) as [[raw|arr]|].
Qed.

(** C9, refuted as stated.  A slot whose text is the JSON of an empty object
    parses without an error to a truthy value, so [loadArray] returns that
    object: the read does not return a sequence for every stored value. *)
Lemma loadArray_returns_stored_object :
  Raw.loadArray (Some (Raw.Stringified (Raw.Object []))) = Normal (Raw.Object []) /\
  not (forall x : option Raw.text,
         exists records, Raw.loadArray x = Normal (Raw.Array records)).
Proof.
  split; [reflexivity|].
  intros H. destruct (H (Some (Raw.Stringified (Raw.Object [])))) as [records Hr].
  discriminate Hr.
Qed.

(** C9, amended.  [loadArray] never throws, whatever the slot holds.  It
    returns the empty array when the key is absent, when the text is not
    JSON and when the parsed value is falsy ([null], [false], [0], the
    empty string); it returns a stored array as it is, in its stored order;
    any other truthy value (an object, a number, a text) is returned as
    parsed and is not an array.  On the slots the store itself writes (an
    array of records) [getDrafts] and [getPosts] return the records in
    stored order and leave the world as it was. *)
Theorem loadArray_defaults_only_on_falsy (x : option Raw.text) :
  (exists v, Raw.loadArray x = Normal v) /\
  (x = None -> Raw.loadArray x = Normal (Raw.Array [])) /\
  (forall raw, x = Some (Raw.NotJson raw) -> Raw.loadArray x = Normal (Raw.Array [])) /\
  (forall v, x = Some (Raw.Stringified v) -> Raw.truthy v = false ->
     Raw.loadArray x = Normal (Raw.Array [])) /\
  (forall elements, x = Some (Raw.Stringified (Raw.Array elements)) ->
     Raw.loadArray x = Normal (Raw.Array elements)) /\
  (forall v, x = Some (Raw.Stringified v) -> Raw.truthy v = true ->
     (forall elements, v <> Raw.Array elements) ->
     Raw.loadArray x = Normal v /\
     forall elements, Raw.loadArray x <> Normal (Raw.Array elements)) /\
  (forall w key, x = Raw.of_slot <$> getItem (localStorage w) key ->
     let arr := stored (localStorage w) key in
     Raw.loadArray x = Normal (Raw.Array (Raw.of_post <$> arr)) /\
     loadArray (localStorage w) key = Normal arr /\
     (key = drafts -> BlogStore_getDrafts w = (Normal arr, w)) /\
     (key = posts -> BlogStore_getPosts w = (Normal arr, w))).
Proof.
  split_and!.
  - destruct x as [[raw|v]|]; cbn; eauto.
  - by intros ->.
  - by intros raw ->.
  - intros v -> Hv. cbn. by rewrite Hv.
  - by intros elements ->.
  - intros v -> Hv Hne. cbn. rewrite Hv. split; [done|].
    intros elements [= ->]. by eapply Hne.
  - intros w key -> arr. subst arr. split_and!.
    + apply Raw_loadArray_slot.
    + apply loadArray_stored.
    + intros ->. unfold BlogStore_getDrafts, lift. by rewrite loadArray_stored.
    + intros ->. unfold BlogStore_getPosts, lift. by rewrite loadArray_stored.
Qed.

Lemma loadArray_defaults_only_on_falsy_witness :
  Raw.loadArray (Some (Raw.Stringified (Raw.Number 0))) = Normal (Raw.Array []) /\
  Raw.loadArray (Some (Raw.Stringified (Raw.Text "draft"))) = Normal (Raw.Text "draft") /\
  BlogStore_getDrafts saved_twice =
    (Normal (stored (localStorage saved_twice) drafts), saved_twice).
Proof.
  split_and!.
  - destruct (loadArray_defaults_only_on_falsy (Some (Raw.Stringified (Raw.Number 0))))
      as (_ & _ & _ & H & _).
    exact (H (Raw.Number 0) eq_refl eq_refl).
  - destruct (loadArray_defaults_only_on_falsy (Some (Raw.Stringified (Raw.Text "draft"))))
      as (_ & _ & _ & _ & _ & H & _).
    refine (proj1 (H (Raw.Text "draft") eq_refl eq_refl _)).
    intros elements He. discriminate He.
  - destruct (loadArray_defaults_only_on_falsy
                (Raw.of_slot <$> getItem (localStorage saved_twice) drafts))
      as (_ & _ & _ & _ & _ & _ & H).
    destruct (H saved_twice drafts eq_refl) as (_ & _ & Hd & _).
    exact (Hd eq_refl).
Defined.

(** ** C4: the index *)

(** C4, as stated, fails: only the entries with the identifier of the new
    entry are removed, so two entries that share another identifier in the
    index read are both written back. *)
Lemma updated_index_keeps_other_duplicates :
  ~ (forall (existing : list Meta.t) (meta : Meta.t),
       NoDup (Meta.id <$> updated_index existing meta)).
Proof.
  intros H. specialize (H [entry "a" 1; entry "a" 2] (entry "b" 3)).
  vm_compute in H. apply NoDup_cons in H as [_ H]. apply NoDup_cons in H as [H _].
  apply H. left.
Qed.

(** C4, amended.  Whenever [upsertIndex] returns, the index file holds the
    array it read (empty for a missing or unparseable file) without the
    entries of the new identifier, plus the new entry, sorted newest first
    by [updatedAt || 0].  The new entry is the only one with its
    identifier; an index with one entry per identifier stays so; an entry
    without [updatedAt] counts as time 0 and stands after every entry with
    a positive time.  With the network up and the settings in place
    [upsertIndex] does return.  Entries dated 100, 300, 200 end up in the
    order 300, 200, 100. *)
Theorem upsertIndex_writes_sorted_index (kind : collection) (meta : Meta.t) (w : World) :
  let existing := existing_index kind w in
  let new := updated_index existing meta in
  (result (upsertIndex kind meta) w = Normal tt ->
   index_file kind (after (upsertIndex kind meta) w) = Some new) /\
  (forall s l,
     settings w = Some s -> net (github w) = [] ->
     (forall t sha, files (github w) !! index_path kind = Some (t, sha) -> sha ≠ "") ->
     index_read (files (github w) !! index_path kind) = Some l ->
     result (upsertIndex kind meta) w = Normal tt /\ existing = l) /\
  new ≡ₚ (filter (fun x => Meta.id x ≠ Meta.id meta) existing ++ [meta])%list /\
  filter (fun x => Meta.id x = Meta.id meta) new = [meta] /\
  (NoDup (Meta.id <$> existing) -> NoDup (Meta.id <$> new)) /\
  StronglySorted not_older new /\
  (forall i j x y,
     new !! i = Some x -> new !! j = Some y ->
     Meta.updatedAt x = None -> 0 < updatedAt_or_0 y -> (j < i)%nat) /\
  Meta.updatedAt <$>
    updated_index (updated_index (updated_index [] (entry "a" 100)) (entry "b" 300))
      (entry "c" 200)
  = [Some 300; Some 200; Some 100].
Proof.
  intros existing new. split_and!.
  - apply upsertIndex_written.
  - intros s l. apply upsertIndex_completes.
  - apply updated_index_perm.
  - apply updated_index_one.
  - apply updated_index_NoDup.
  - apply Array_sort_sorted.
  - intros i j x y. apply undated_after_dated, Array_sort_sorted.
  - reflexivity.
Qed.

Lemma upsertIndex_writes_sorted_index_witness :
  let w := holding configured
             [("posts/index.json", Json (JIndex [entry "b" 300; entry "a" 100]))] in
  result (upsertIndex posts (entry "c" 200)) w = Normal tt /\
  index_file posts (after (upsertIndex posts (entry "c" 200)) w)
  = Some [entry "b" 300; entry "c" 200; entry "a" 100].
Proof.
  split; [vm_compute; reflexivity|].
  destruct (upsertIndex_writes_sorted_index posts (entry "c" 200)
              (holding configured
                 [("posts/index.json", Json (JIndex [entry "b" 300; entry "a" 100]))]))
    as [H _].
  rewrite H; [|vm_compute; reflexivity].
  vm_compute. reflexivity.
Defined.

(** ** What every handler does to the collections *)

Lemma loadDraft_world (id plain : string) (w : World) :
  localStorage (after (loadDraft id plain) w) = localStorage w /\
  github (after (loadDraft id plain) w) = github w.
Proof.
  unfold after, loadDraft, bind. rewrite BlogStore_getDrafts_run.
  by destruct (find (has_id (Some id)) (stored (localStorage w) drafts)).
Qed.

Lemma handle_effect (ev : event) (w : World) :
  let w' := after (handle ev) w in
  let ls := localStorage w in
  let ls' := localStorage w' in
  extends (github w) (github w') /\
  ((stored ls' drafts = stored ls drafts /\ stored ls' posts = stored ls posts)
   \/ (exists id, stored ls' drafts = removeById (stored ls drafts) id /\
                  stored ls' posts = stored ls posts)
   \/ (exists d, stored ls' drafts = removeById (stored ls drafts) (Post.id d) /\
                 stored ls' posts = upsert (stored ls posts) d)
   \/ (exists random now, ev = SaveDraftLocal random now /\
         stored ls' drafts = upsert (stored ls drafts) (gathered random now w) /\
         stored ls' posts = stored ls posts)).
Proof.
  cbv zeta. destruct ev as [title html plain|random now|random now|random now
                            |id plain|id|o r b t|]; simpl handle.
  - split; [apply extends_refl | by left].
  - destruct (saveDraftLocal_click_world random now w) as (Hls & Hgh & _).
    rewrite Hgh, Hls. split; [apply extends_refl|].
    do 3 right. exists random, now. by rewrite !stored_saveArray.
  - destruct (saveDraftGh_click_world random now w) as (r' & msg & Hext & -> & _).
    split; [done | by left].
  - destruct (publish_click_world random now w)
      as [[_ ->]|[(_ & _ & Hext & [[_ ->]|[_ ->]])|(_ & _ & ->)]].
    + split; [apply extends_refl | by left].
    + split; [done|]. right. left. eexists.
      cbn [localStorage github with_ui with_localStorage with_github].
      by rewrite !stored_saveArray.
    + split; [done | by left].
    + split; [apply extends_refl|]. right. right. left. eexists.
      cbn [localStorage github with_ui with_localStorage with_github].
      by rewrite !stored_saveArray.
  - destruct (loadDraft_world id plain w) as [-> ->].
    split; [apply extends_refl | by left].
  - unfold after. rewrite BlogStore_deleteDraft_run.
    split; [apply extends_refl|]. right. left. eexists.
    cbn [localStorage github with_ui with_localStorage with_github snd].
    by rewrite !stored_saveArray.
  - split; [apply extends_refl | by left].
  - split; [apply extends_refl | by left].
Qed.

Lemma published_inv (w w' : World) (id : string) (e : ui_event) :
  published w w' id -> ui w' = (ui w ++ [e])%list -> e = Navigate (post_url id).
Proof.
  unfold published. intros -> H. apply app_inv_head in H. congruence.
Qed.

(** A click on [publish] that leaves for the post has removed the draft. *)
Lemma publish_click_deletes (random : string) (now : Z) (w : World) :
  let d := gathered random now w in
  let w' := after (publish_click random now) w in
  published w w' (Post.id d) ->
  stored (localStorage w') drafts = removeById (stored (localStorage w) drafts) (Post.id d).
Proof.
  intros d w' Hpub.
  destruct (publish_click_world random now w)
    as [[_ Hw]|[(_ & _ & _ & [[_ Hw]|[_ Hw]])|(_ & _ & Hw)]];
    fold w' d in Hw.
  - apply (published_inv _ _ _ (Alert "Please add a title and some content.")) in Hpub;
      [done | by rewrite Hw].
  - rewrite Hw. cbn [localStorage github with_ui with_localStorage with_github].
    by rewrite stored_saveArray.
  - apply (published_inv _ _ _
             (Alert "Failed publishing to GitHub. Check settings/token.")) in Hpub;
      [done | by rewrite Hw].
  - rewrite Hw. cbn [localStorage github with_ui with_localStorage with_github].
    by rewrite !stored_saveArray.
Qed.

Lemma removeById_gone (arr : list Post.t) (id : string) : id ∉ Post.id <$> removeById arr id.
Proof. intros H. apply removeById_ids in H. by destruct H. Qed.

(** ** C5: validation *)

(** C5.  When the gathered record has an empty title, or its content is
    empty once the markup is stripped and the rest trimmed, the click on
    [publish] only alerts: local storage, the repository with its log of
    requests, and the editor are as before. *)
Theorem publish_invalid_writes_nothing (random : string) (now : Z) (w : World) :
  let d := gathered random now w in
  let w' := after (publish_click random now) w in
  Post.title d = "" \/ trim (stripTags (Post.content d)) = "" ->
  result (publish_click random now) w = Normal tt /\
  ui w' = (ui w ++ [Alert "Please add a title and some content."])%list /\
  localStorage w' = localStorage w /\
  github w' = github w /\
  editor w' = editor w.
Proof.
  intros d w' Hempty. subst w'. unfold result, after. rewrite publish_click_run. fold d.
  cbv zeta.
  assert (invalid d = true) as ->; [|done].
  unfold invalid. destruct Hempty as [-> | ->]; [done|].
  apply orb_true_r.
Qed.

Lemma publish_invalid_writes_nothing_witness :
  let w := after (edit "Title" "<p><br></p>" "") (holding configured []) in
  trim (stripTags (Post.content (gathered "abc" 100 w))) = "" /\
  github (after (publish_click "abc" 100) w) = github w /\
  localStorage (after (publish_click "abc" 100) w) = localStorage w.
Proof.
  split; [reflexivity|].
  destruct (publish_invalid_writes_nothing "abc" 100
              (after (edit "Title" "<p><br></p>" "") (holding configured [])))
    as (_ & _ & Hls & Hgh & _).
  - right. reflexivity.
  - split; assumption.
Defined.

(** ** C7: the local draft after a publish *)

(** C7.  When a click on [publish] succeeds (the page leaves for the post),
    local storage holds the drafts it held, minus those with the identifier
    of the published record: no local draft has that identifier, whether
    the record went to the repository or to local storage. *)
Theorem publish_deletes_local_draft (random : string) (now : Z) (w : World) :
  let d := gathered random now w in
  let w' := after (publish_click random now) w in
  published w w' (Post.id d) ->
  stored (localStorage w') drafts = removeById (stored (localStorage w) drafts) (Post.id d) /\
  ~ local_has w' drafts (Post.id d).
Proof.
  intros d w' Hpub. pose proof (publish_click_deletes random now w Hpub) as Hdel.
  fold d w' in Hdel. split; [done|].
  unfold local_has, local_ids. rewrite Hdel. apply removeById_gone.
Qed.

Lemma publish_deletes_local_draft_witness :
  let w := after (saveDraftLocal_click "abc" 100) (written configured) in
  local_has w drafts "p_abc2s" /\
  published w (after (publish_click "z" 300) w) "p_abc2s" /\
  ~ local_has (after (publish_click "z" 300) w) drafts "p_abc2s".
Proof.
  split; [vm_compute; left|].
  split; [vm_compute; reflexivity|].
  apply (publish_deletes_local_draft "z" 300
           (after (saveDraftLocal_click "abc" 100) (written configured))).
  vm_compute. reflexivity.
Defined.

(** The same on the local path. *)
Example local_publish_deletes_draft :
  let w := after (saveDraftLocal_click "abc" 100) (written fresh) in
  local_ids w drafts = ["p_abc2s"] /\
  published w (after (publish_click "z" 300) w) "p_abc2s" /\
  local_ids (after (publish_click "z" 300) w) drafts = [] /\
  local_ids (after (publish_click "z" 300) w) posts = ["p_abc2s"].
Proof. vm_compute. by split_and!. Qed.

(** ** C3: one collection per identifier *)

(** C3, as stated, fails on the repository: the client has no delete, so
    the draft file of a record saved to the repository is still there
    after the record is published. *)
Lemma remote_draft_survives_publish :
  ~ (forall w, reachable w ->
       forall id,
         ~ (local_has w drafts id /\ local_has w posts id) /\
         ~ (remote_has w drafts id /\ remote_has w posts id)).
Proof.
  intros H.
  destruct (H drafted_then_published (ex_intro _ _ eq_refl) "p_abc2s") as [_ Hremote].
  apply Hremote. split; vm_compute; eauto.
Qed.

(** Both indexes list it as well. *)
Example remote_indexes_after_publish :
  remote_lists drafted_then_published drafts "p_abc2s" /\
  remote_lists drafted_then_published posts "p_abc2s" /\
  local_ids drafted_then_published drafts = [] /\
  local_ids drafted_then_published posts = [].
Proof.
  split_and!; [| |reflexivity|reflexivity];
    unfold remote_lists; vm_compute; eexists _, _; (split; [reflexivity|left]).
Qed.

Lemma local_disjoint_stored (w w' : World) :
  local_disjoint w ->
  (forall id, id ∈ Post.id <$> stored (localStorage w') drafts ->
              id ∈ Post.id <$> stored (localStorage w') posts ->
              id ∈ Post.id <$> stored (localStorage w) drafts /\
              id ∈ Post.id <$> stored (localStorage w) posts) ->
  local_disjoint w'.
Proof.
  intros Hd Hsub id [H1 H2]. apply (Hd id). by apply Hsub.
Qed.

(** C3, amended.  On the local backend every handler keeps each
    identifier in at most one of drafts and posts, provided a local draft
    save does not take the identifier of a published post; a publish that
    succeeds leaves no local draft with the identifier.  On the repository
    no handler removes a record file: one written stays. *)
Theorem handlers_keep_local_collections_apart (ev : event) (w : World) :
  let w' := after (handle ev) w in
  (local_disjoint w ->
   (forall random now, ev = SaveDraftLocal random now ->
      ~ local_has w posts (Post.id (gathered random now w))) ->
   local_disjoint w') /\
  (forall random now, ev = Publish random now ->
     published w w' (Post.id (gathered random now w)) ->
     ~ local_has w' drafts (Post.id (gathered random now w))) /\
  (forall kind id, remote_has w kind id -> remote_has w' kind id).
Proof.
  cbv zeta. destruct (handle_effect ev w) as [[_ Hfiles] Hshape]. split_and!.
  - intros Hd Hfresh. apply (local_disjoint_stored w); [done|]. intros id.
    destruct Hshape as [[-> ->]|[(i & -> & ->)|[(d & -> & ->)|(random & now & -> & -> & ->)]]].
    + done.
    + rewrite removeById_ids. tauto.
    + rewrite removeById_ids, upsert_ids_elem. intros [H1 Hne] [H2|H2]; [done|congruence].
    + rewrite upsert_ids_elem. intros [H1|H1] H2; [done|]. subst id.
      exfalso. by apply (Hfresh random now).
  - intros random now -> Hpub. simpl handle in *.
    unfold local_has, local_ids. rewrite (publish_click_deletes random now w Hpub).
    apply removeById_gone.
  - intros kind id. apply Hfiles.
Qed.

Lemma handlers_keep_local_collections_apart_witness :
  let w := after (saveDraftLocal_click "abc" 100) (written fresh) in
  local_disjoint w /\ local_disjoint (after (handle (Publish "z" 300)) w).
Proof.
  assert (local_disjoint (after (saveDraftLocal_click "abc" 100) (written fresh))) as Hd.
  { intros id [_ H]. vm_compute in H. inversion H. }
  split; [exact Hd|].
  destruct (handlers_keep_local_collections_apart (Publish "z" 300)
              (after (saveDraftLocal_click "abc" 100) (written fresh))) as [H _].
  apply H; [exact Hd|]. intros random now Heq. discriminate Heq.
Defined.

(** ** C2: which backend *)

Lemma field_nonempty (f : option string) : field f = true <-> nonempty f.
Proof.
  unfold field, nonempty, truthy. destruct f as [s|].
  - rewrite negb_true_iff, String.eqb_neq. split; [by exists s | by intros (? & [= ->] & ?)].
  - split; [done | by intros (? & ? & ?)].
Qed.

Lemma all_four_spec (o : option GhSettings) :
  all_four o = true <->
  exists s, o = Some s /\ nonempty (owner s) /\ nonempty (repo s) /\
            nonempty (branch s) /\ nonempty (token s).
Proof.
  destruct o as [s|]; simpl.
  - rewrite !andb_true_iff, !field_nonempty. split.
    + intros [[[? ?] ?] ?]. by exists s.
    + intros (? & [= <-] & ? & ? & ? & ?). done.
  - split; [done | by intros (? & ? & _)].
Qed.

Lemma reads_remote_spec (o : option GhSettings) :
  reads_remote o = true <->
  exists s, o = Some s /\ nonempty (owner s) /\ nonempty (repo s) /\ nonempty (branch s).
Proof.
  destruct o as [s|]; simpl.
  - rewrite !andb_true_iff, !field_nonempty. split.
    + intros [[? ?] ?]. by exists s.
    + intros (? & [= <-] & ? & ? & ?). done.
  - split; [done | by intros (? & ? & _)].
Qed.

(** The first request of [saveToGitHub] is the lookup of the record file. *)
Lemma saveToGitHub_log (kind : collection) (d : Post.t) (w : World) (s : GhSettings) :
  settings w = Some s ->
  exists more,
    log (github (after (saveToGitHub kind d) w)) =
    (log (github w) ++ GET_contents (record_path kind (Post.id d)) :: more)%list.
Proof.
  intros Hs. unfold after, saveToGitHub, bind.
  rewrite (putFile_run _ _ _ _ _ Hs).
  match goal with
  | |- context [GitHubClient_request ?req ?w1] =>
      pose proof (request_PUT_log (record_path kind (Post.id d))
                    {| message := (match kind with
                                   | drafts => "chore: save draft"
                                   | posts => "feat: publish post"
                                   end) +:+ " (" +:+ Post.id d +:+ ")";
                       put_content := Json (JPost d); put_branch := branch s;
                       put_sha := looked_up (record_path kind (Post.id d)) (github w) |}
                    w1 s Hs) as Hlog;
      unfold after in Hlog;
      destruct (GitHubClient_request req w1) as [[p|e] w2]
  end; simpl in Hlog.
  - destruct (github_only_upsertIndex kind (meta_of d) w2) as (r' & Hw & [[more Hmore] _]).
    rewrite Hw. simpl. rewrite Hmore, Hlog, <- !app_assoc. by eexists.
  - simpl. rewrite Hlog, <- app_assoc. by eexists.
Qed.

Lemma resolve_run (id : option string) (w : World) :
  resolve id w =
  if reads_remote (settings w) then
    (Normal match remote_post id (github w) with
            | Some v => Some v
            | None => local_post w id
            end,
     with_github w (sent (GET_raw (record_path posts (id_text id))) (github w)))
  else (Normal (local_post w id), w).
Proof.
  unfold resolve. unfold bind at 1. rewrite getGhSettings_run.
  destruct (reads_remote (settings w)) eqn:Hr.
  - apply reads_remote_spec in Hr as (s & Hs & _).
    unfold bind at 1. unfold try_catch, read_remote_post. unfold bind at 1.
    rewrite (readRaw_run _ _ _ Hs). unfold remote_post.
    destruct (raw_read (record_path posts (id_text id)) (github w)) as [[raw|v]|e];
      unfold bind, lift, ret, parse_text, JSON_parse; cbv beta iota;
      rewrite ?BlogStore_getPostById_run; reflexivity.
  - unfold bind, ret. cbv beta iota. by rewrite BlogStore_getPostById_run.
Qed.

(** C2, as stated, fails for the reader: it reads the repository without
    looking at the token. *)
Lemma reader_reads_remote_without_token :
  ~ (forall w id,
       log (github (after (resolve id) w)) ≠ log (github w) <->
       result hasGhConfig w = Normal true).
Proof.
  intros H. destruct (H tokenless (Some "p_abc2s")) as [Hto _].
  assert (result hasGhConfig tokenless = Normal true) as Hcfg.
  { apply Hto. vm_compute. discriminate. }
  vm_compute in Hcfg. discriminate Hcfg.
Qed.

(** C2, amended.  [hasGhConfig] holds exactly when owner, repository,
    branch and token are all present and not empty.  A valid publish goes
    to the repository exactly when it holds, and to local storage
    otherwise; a draft save to GitHub sends requests only when it holds.
    The reader attempts the raw read exactly when owner, repository and
    branch are present and not empty, whatever the token, and otherwise
    goes straight to local storage. *)
Theorem remote_gate (w : World) :
  result hasGhConfig w = Normal (all_four (settings w)) /\
  (all_four (settings w) = true <->
   exists s, settings w = Some s /\ nonempty (owner s) /\ nonempty (repo s) /\
             nonempty (branch s) /\ nonempty (token s)) /\
  (forall random now,
     let d := gathered random now w in
     let w' := after (publish_click random now) w in
     invalid d = false ->
     (all_four (settings w) = true ->
      (exists more, log (github w') =
         (log (github w) ++ GET_contents (record_path posts (Post.id d)) :: more)%list) /\
      stored (localStorage w') posts = stored (localStorage w) posts) /\
     (all_four (settings w) = false ->
      github w' = github w /\
      stored (localStorage w') posts = upsert (stored (localStorage w) posts) d)) /\
  (forall random now,
     let d := gathered random now w in
     let w' := after (saveDraftGh_click random now) w in
     (all_four (settings w) = true ->
      exists more, log (github w') =
        (log (github w) ++ GET_contents (record_path drafts (Post.id d)) :: more)%list) /\
     (all_four (settings w) = false -> github w' = github w) /\
     localStorage w' = localStorage w) /\
  (reads_remote (settings w) = true <->
   exists s, settings w = Some s /\ nonempty (owner s) /\ nonempty (repo s) /\
             nonempty (branch s)) /\
  (forall id,
     let w' := after (resolve id) w in
     (reads_remote (settings w) = true ->
      log (github w') = (log (github w) ++ [GET_raw (record_path posts (id_text id))])%list) /\
     (reads_remote (settings w) = false ->
      github w' = github w /\ result (resolve id) w = Normal (local_post w id))).
Proof.
  split_and!.
  - unfold result. by rewrite hasGhConfig_run.
  - apply all_four_spec.
  - intros random now d w' Hvalid.
    destruct (publish_click_world random now w)
      as [[Hinv _]|[(_ & Hcfg & _ & [[_ Hw]|[_ Hw]])|(_ & Hcfg & Hw)]];
      fold d w' in Hinv || fold d w' in Hw; [congruence| | |].
    + split; [intros _|congruence]. rewrite Hw.
      cbn [localStorage github with_ui with_localStorage with_github].
      rewrite stored_saveArray. split; [|done].
      apply all_four_spec in Hcfg as (s & Hs & _). by apply (saveToGitHub_log _ _ _ s).
    + split; [intros _|congruence]. rewrite Hw.
      cbn [localStorage github with_ui with_localStorage with_github].
      split; [|done].
      apply all_four_spec in Hcfg as (s & Hs & _). by apply (saveToGitHub_log _ _ _ s).
    + split; [congruence|intros _]. rewrite Hw.
      cbn [localStorage github with_ui with_localStorage with_github].
      by rewrite !stored_saveArray.
  - intros random now d w'.
    destruct (saveDraftGh_click_world random now w) as (r' & msg & _ & Hw & Hoff & Hon).
    fold d w' in Hw, Hon. rewrite Hw.
    cbn [localStorage github with_ui with_localStorage with_github]. split_and!; [|done|done].
    intros Hcfg. rewrite (Hon Hcfg).
    apply all_four_spec in Hcfg as (s & Hs & _). by apply (saveToGitHub_log _ _ _ s).
  - apply reads_remote_spec.
  - intros id w'. subst w'. unfold after, result. rewrite resolve_run.
    destruct (reads_remote (settings w)); split; done.
Qed.

Lemma remote_gate_witness :
  reads_remote (settings tokenless) = true /\
  all_four (settings tokenless) = false /\
  log (github (after (resolve (Some "p_abc2s")) tokenless)) = [GET_raw "posts/p_abc2s.json"] /\
  github (after (publish_click "abc" 100) (written tokenless)) = github (written tokenless).
Proof.
  split; [reflexivity|]. split; [reflexivity|].
  destruct (remote_gate tokenless) as (_ & _ & _ & _ & _ & Hreader).
  destruct (remote_gate (written tokenless)) as (_ & _ & Hpublish & _).
  split.
  - destruct (Hreader (Some "p_abc2s")) as [H _]. rewrite H; reflexivity.
  - destruct (Hpublish "abc" 100) as [_ H]; [reflexivity|].
    destruct H as [H _]; [reflexivity|exact H].
Defined.

(** ** C6: the reader's lookup *)

Lemma read_remote_post_run (id : option string) (w : World) (s : GhSettings) :
  settings w = Some s ->
  result (read_remote_post id) w =
  match raw_read (record_path posts (id_text id)) (github w) with
  | Normal (Json v) => Normal (Some v)
  | Normal (Unparseable _) => Throw SyntaxError
  | Throw e => Throw e
  end.
Proof.
  intros Hs. unfold result, read_remote_post, bind. rewrite (readRaw_run _ _ _ Hs).
  by destruct (raw_read (record_path posts (id_text id)) (github w)) as [[raw|v]|e].
Qed.

Lemma find_absent {A} (p : A -> bool) (l : list A) :
  (forall x, x ∈ l -> p x = false) -> find p l = None.
Proof.
  induction l as [|y l IH]; intros Hall; [done|]. unfold find in *. simpl.
  rewrite (Hall y) by left. apply IH. intros x Hx. apply Hall. by right.
Qed.

Lemma local_post_absent (w : World) (id : option string) :
  (forall i, id = Some i -> ~ local_has w posts i) -> local_post w id = None.
Proof.
  intros Hno. unfold local_post. rewrite find_absent; [done|].
  intros x Hx. destruct id as [i|]; [|done]. simpl.
  apply String.eqb_neq. intros Hid. apply (Hno i eq_refl).
  unfold local_has, local_ids. rewrite <- Hid. by apply list_elem_of_fmap_2.
Qed.

(** C6.  The reader's lookup never throws.  Whatever error the remote read
    ends with (a failure status such as 404, a network error, text that
    does not parse, missing settings), and also when no remote read is
    attempted, the result is the local lookup among the posts; when the
    repository has no file for the identifier and local storage no post
    with it, the result is absent. *)
Theorem resolve_falls_back_to_local (id : option string) (w : World) :
  (exists v, result (resolve id) w = Normal v) /\
  (forall e, result (read_remote_post id) w = Throw e ->
     result (resolve id) w = Normal (local_post w id)) /\
  (reads_remote (settings w) = false -> result (resolve id) w = Normal (local_post w id)) /\
  (forall s, settings w = Some s ->
     result (read_remote_post id) w =
     match raw_read (record_path posts (id_text id)) (github w) with
     | Normal (Json v) => Normal (Some v)
     | Normal (Unparseable _) => Throw SyntaxError
     | Throw e => Throw e
     end) /\
  (~ remote_has w posts (id_text id) ->
   (forall i, id = Some i -> ~ local_has w posts i) ->
   result (resolve id) w = Normal None).
Proof.
  unfold result at 1 3 4 6. rewrite resolve_run. split_and!.
  - destruct (reads_remote (settings w)); by eexists.
  - intros e He. destruct (reads_remote (settings w)) eqn:Hr; [|done].
    apply reads_remote_spec in Hr as (s & Hs & _).
    rewrite (read_remote_post_run _ _ _ Hs) in He. unfold remote_post. simpl.
    by destruct (raw_read (record_path posts (id_text id)) (github w)) as [[raw|v]|e'].
  - by intros ->.
  - apply read_remote_post_run.
  - intros Hremote Hlocal. rewrite (local_post_absent _ _ Hlocal).
    destruct (reads_remote (settings w)); [|done]. simpl.
    unfold remote_post, raw_read.
    assert (files (github w) !! record_path posts (id_text id) = None) as ->.
    { apply eq_None_not_Some. exact Hremote. }
    by destruct (net (github w)) as [|[| |f] n].
Qed.

Lemma resolve_falls_back_to_local_witness :
  let w := after (BlogStore_publish (record "p_local" "Kept locally" 5)) configured in
  result (read_remote_post (Some "p_local")) w = Throw (HttpError 404) /\
  result (resolve (Some "p_local")) w = Normal (Some (JPost (record "p_local" "Kept locally" 5))) /\
  result (resolve (Some "p_nowhere")) w = Normal None.
Proof.
  split; [reflexivity|].
  destruct (resolve_falls_back_to_local (Some "p_local")
              (after (BlogStore_publish (record "p_local" "Kept locally" 5)) configured))
    as (_ & Hfall & _).
  destruct (resolve_falls_back_to_local (Some "p_nowhere")
              (after (BlogStore_publish (record "p_local" "Kept locally" 5)) configured))
    as (_ & _ & _ & _ & Habsent).
  split.
  - rewrite (Hfall (HttpError 404)); reflexivity.
  - apply Habsent.
    + vm_compute. intros [x Hx]. discriminate Hx.
    + intros i [= <-] Hin. vm_compute in Hin.
      apply list_elem_of_singleton in Hin. discriminate Hin.
Defined.

(** The other failures of the remote read, with the post in the repository. *)
Example resolve_survives_outages :
  let post := record "p_remote" "In the repository" 7 in
  let w := holding configured [("posts/p_remote.json", Json (JPost post))] in
  result (resolve (Some "p_remote")) w = Normal (Some (JPost post)) /\
  result (resolve (Some "p_remote")) (failing w [Down]) = Normal None /\
  result (resolve (Some "p_remote")) (failing w [Refuse ServerError]) = Normal None /\
  result (resolve (Some "p_remote"))
    (holding configured [("posts/p_remote.json", Unparseable "{oops")]) = Normal None /\
  result (resolve None) w = Normal None.
Proof. vm_compute. by split_and!. Qed.

(** ** C10: the version token after a failed lookup *)

(** C10.  [getContentSha] never throws, and returns no token whenever the
    lookup request fails, for whatever reason: the request lost, refused
    with a failure status, or the path missing.  [putFile] then sends its
    write without a token, whether or not the path exists. *)
Theorem getContentSha_hides_failed_lookup (path : string) (w : World) :
  (exists v, result (getContentSha path) w = Normal v) /\
  (forall e, result (GitHubClient_request (GET_contents path)) w = Throw e ->
     result (getContentSha path) w = Normal None /\
     forall s t msg, settings w = Some s ->
       log (github (after (putFile path t msg) w)) =
       (log (github w) ++
        [GET_contents path;
         PUT_contents path {| message := msg; put_content := t;
                              put_branch := branch s; put_sha := None |}])%list) /\
  (forall s, settings w = Some s -> delivered (github w) = false ->
     exists e, result (GitHubClient_request (GET_contents path)) w = Throw e).
Proof.
  split_and!.
  - unfold result. destruct (settings w) as [s|] eqn:Hs.
    + rewrite (getContentSha_run _ _ _ Hs). by eexists.
    + rewrite (getContentSha_unconfigured _ _ Hs). by eexists.
  - intros e He. unfold result in *. destruct (settings w) as [s|] eqn:Hs.
    + assert (looked_up path (github w) = None) as Hnone.
      { rewrite (request_GET_contents _ _ _ Hs) in He. unfold looked_up, delivered.
        destruct (net (github w)) as [|[| |f] n]; try done;
          by destruct (files (github w) !! path) as [[t sha]|]. }
      rewrite (getContentSha_run _ _ _ Hs), Hnone. split; [done|].
      intros s' t msg [= <-]. unfold after. rewrite (putFile_run _ _ _ _ _ Hs), Hnone.
      pose proof (request_PUT_log path
                    {| message := msg; put_content := t; put_branch := branch s;
                       put_sha := None |}
                    (with_github w (sent (GET_contents path) (github w))) s Hs) as Hlog.
      unfold after in Hlog. rewrite Hlog. simpl. by rewrite <- app_assoc.
    + rewrite (getContentSha_unconfigured _ _ Hs). done.
  - intros s Hs Hdown. unfold result. rewrite (request_GET_contents _ _ _ Hs).
    unfold delivered in Hdown. destruct (net (github w)) as [|[| |f] n]; try done; by eexists.
Qed.

Lemma getContentSha_hides_failed_lookup_witness :
  let w := failing (holding configured [("posts/p_a.json", Json (JPost (record "p_a" "A" 1)))])
             [Refuse ServerError] in
  result (GitHubClient_request (GET_contents "posts/p_a.json")) w = Throw (HttpError 500) /\
  is_Some (files (github w) !! "posts/p_a.json") /\
  result (getContentSha "posts/p_a.json") w = Normal None /\
  log (github (after (putFile "posts/p_a.json" (Json (JPost (record "p_a" "B" 2))) "m") w))
  = [GET_contents "posts/p_a.json";
     PUT_contents "posts/p_a.json"
       {| message := "m"; put_content := Json (JPost (record "p_a" "B" 2));
          put_branch := Some "main"; put_sha := None |}].
Proof.
  split; [reflexivity|]. split; [vm_compute; eauto|].
  destruct (getContentSha_hides_failed_lookup "posts/p_a.json"
              (failing (holding configured
                          [("posts/p_a.json", Json (JPost (record "p_a" "A" 1)))])
                 [Refuse ServerError])) as (_ & H & _).
  destruct (H (HttpError 500) eq_refl) as [Hsha Hput].
  split; [exact Hsha|].
  rewrite (Hput {| owner := Some "owner"; repo := Some "repo";
                   branch := Some "main"; token := Some "token" |}
             (Json (JPost (record "p_a" "B" 2))) "m" eq_refl).
  reflexivity.
Defined.

(** The write that follows is a conflict for the server, and the file keeps
    its content. *)
Example putFile_after_failed_lookup :
  let w := failing (holding configured [("posts/p_a.json", Json (JPost (record "p_a" "A" 1)))])
             [Refuse ServerError] in
  let w' := after (putFile "posts/p_a.json" (Json (JPost (record "p_a" "B" 2))) "m") w in
  result (putFile "posts/p_a.json" (Json (JPost (record "p_a" "B" 2))) "m") w
  = Throw (HttpError 409) /\
  fst <$> files (github w') !! "posts/p_a.json" = Some (Json (JPost (record "p_a" "A" 1))).
Proof. vm_compute. by split. Qed.

(** ** C1: [createdAt] *)

(** C1 does not hold of the code: [gatherPostData] stamps [createdAt] with
    the time of the save, as it does [updatedAt], also for a draft that is
    saved again under its identifier; [upsert] then replaces the stored
    record, and the time of creation is lost.  Here a draft saved at 100
    and again at 200 ends with [createdAt] 200. *)
Theorem resave_overwrites_createdAt :
  (forall random now w,
     let d := gathered random now w in
     Post.createdAt d = now /\ Post.updatedAt d = now /\
     d ∈ stored (localStorage (after (saveDraftLocal_click random now) w)) drafts) /\
  (fun d => (Post.id d, Post.createdAt d, Post.updatedAt d))
    <$> stored (localStorage saved_once) drafts = [("p_abc2s", 100, 100)] /\
  (fun d => (Post.id d, Post.createdAt d, Post.updatedAt d))
    <$> stored (localStorage saved_twice) drafts = [("p_abc2s", 200, 200)].
Proof.
  split_and!; [|reflexivity|reflexivity].
  intros random now w d. split_and!; [reflexivity|reflexivity|].
  destruct (saveDraftLocal_click_world random now w) as (-> & _).
  rewrite stored_saveArray. simpl. apply upsert_elem.
Qed.

(** * Further properties *)

(** ** Strings: [escapeHtml], the excerpt, the markup filter *)

Lemma append_cons (x : ascii) (a b : string) : String x a +:+ b = String x (a +:+ b).
Proof. reflexivity. Qed.

Lemma append_nil (b : string) : "" +:+ b = b.
Proof. reflexivity. Qed.

Ltac append_norm := repeat first [rewrite append_cons | rewrite append_nil].

Lemma append_assoc (a b c : string) : (a +:+ b) +:+ c = a +:+ (b +:+ c).
Proof. induction a as [|x a IH]; append_norm; [done | by f_equal]. Qed.

Lemma occurs_append (c : ascii) (a b : string) :
  occurs c (a +:+ b) = occurs c a || occurs c b.
Proof.
  induction a as [|x a IH]; append_norm; simpl; [done | by rewrite IH, orb_assoc].
Qed.

Lemma escapeHtml_append (a b : string) :
  escapeHtml (a +:+ b) = escapeHtml a +:+ escapeHtml b.
Proof.
  induction a as [|x a IH]; append_norm; simpl; [done|]. by rewrite IH, append_assoc.
Qed.

Ltac escape_cases c :=
  unfold escape_char;
  destruct (Ascii.eqb c "&") eqn:?;
  [|destruct (Ascii.eqb c "<") eqn:?;
    [|destruct (Ascii.eqb c (ascii_of_N 34)) eqn:?;
      [|destruct (Ascii.eqb c "'") eqn:?;
        [|destruct (Ascii.eqb c ">") eqn:?]]]].

(** No replacement contains one of the four characters that open or close
    markup or an attribute value. *)
Lemma escape_char_safe (c x : ascii) :
  x = "<"%char \/ x = ">"%char \/ x = ascii_of_N 34 \/ x = "'"%char ->
  occurs x (escape_char c) = false.
Proof.
  intros Hx. escape_cases c;
    try (destruct Hx as [->|[->|[->| ->]]]; reflexivity).
  simpl. rewrite orb_false_r.
  destruct Hx as [->|[->|[->| ->]]]; assumption.
Qed.

(** The replacement tells the character and what follows. *)
Lemma escape_char_inj (c1 c2 : ascii) (s1 s2 : string) :
  escape_char c1 +:+ s1 = escape_char c2 +:+ s2 -> c1 = c2 /\ s1 = s2.
Proof.
  escape_cases c1; escape_cases c2; append_norm; intros Heq;
    repeat match goal with
           | H : Ascii.eqb _ _ = true |- _ => apply Ascii.eqb_eq in H
           end;
    try (injection Heq as Heq; subst; done);
    try (injection Heq as Heq1 Heq2; subst;
         repeat match goal with
                | H : Ascii.eqb ?a ?a = false |- _ =>
                    rewrite Ascii.eqb_refl in H; discriminate H
                end; done).
Qed.

(** X1.  Whatever the text, the escaped text contains no less-than, no
    greater-than, no double quote and no apostrophe. *)
Theorem escapeHtml_leaves_no_markup (unsafe : string) :
  occurs "<" (escapeHtml unsafe) = false /\
  occurs ">" (escapeHtml unsafe) = false /\
  occurs (ascii_of_N 34) (escapeHtml unsafe) = false /\
  occurs "'" (escapeHtml unsafe) = false.
Proof.
  induction unsafe as [|c rest (IH1 & IH2 & IH3 & IH4)]; [done|]. cbn [escapeHtml].
  rewrite !occurs_append, IH1, IH2, IH3, IH4, !orb_false_r.
  split_and!; apply escape_char_safe; tauto.
Qed.

(** X2.  Escaping loses nothing: two texts with the same escaped text are
    the same text; and escaping goes through concatenation. *)
Theorem escapeHtml_injective (a b : string) :
  (escapeHtml a = escapeHtml b -> a = b) /\
  forall c, escapeHtml (a +:+ c) = escapeHtml a +:+ escapeHtml c.
Proof.
  split; [|intros c; apply escapeHtml_append].
  revert b. induction a as [|x a IH]; intros [|y b]; simpl; intros Heq.
  - done.
  - exfalso. revert Heq. escape_cases y; append_norm; discriminate.
  - exfalso. revert Heq. escape_cases x; append_norm; discriminate.
  - apply escape_char_inj in Heq as [-> Heq]. by rewrite (IH b Heq).
Qed.

Lemma escapeHtml_injective_witness :
  escapeHtml "a<b" = escapeHtml "a<b" /\ "a<b" = "a<b" /\
  escapeHtml "<b>Tom & Jerry</b>" = "&lt;b&gt;Tom &amp; Jerry&lt;/b&gt;".
Proof.
  split; [reflexivity|]. split; [|reflexivity].
  destruct (escapeHtml_injective "a<b" "a<b") as [H _]. apply H. reflexivity.
Defined.

Lemma substring_short (n : nat) (s : string) :
  (String.length s <= n)%nat -> substring 0 n s = s.
Proof.
  revert n. induction s as [|c s IH]; intros [|n] Hlen; simpl in *; try done; try lia.
  rewrite IH; [done | lia].
Qed.

Lemma substring_long (n : nat) (s : string) :
  (n <= String.length s)%nat -> String.length (substring 0 n s) = n.
Proof.
  revert n. induction s as [|c s IH]; intros [|n] Hlen; simpl in *; try done; try lia.
  rewrite IH; [done | lia].
Qed.

Lemma substring_prefix (n : nat) (s : string) : exists rest, s = substring 0 n s +:+ rest.
Proof.
  revert n. induction s as [|c s IH]; intros [|n]; simpl.
  - by exists "".
  - by exists "".
  - by eexists.
  - destruct (IH n) as [rest Hrest]. exists rest. rewrite append_cons. by rewrite <- Hrest.
Qed.

Lemma gathered_excerpt (random : string) (now : Z) (w : World) :
  Post.excerpt (gathered random now w) =
  slice0 180 (trim (quill_getText (editor w))) +:+
  (if (180 <? String.length (trim (quill_getText (editor w))))%nat then ellipsis else "").
Proof. reflexivity. Qed.

Lemma append_empty (s : string) : s +:+ "" = s.
Proof. induction s as [|c s IH]; append_norm; [done | by f_equal]. Qed.

Lemma ascii_text_trimStart (s : string) : ascii_text s = true -> ascii_text (trimStart s) = true.
Proof.
  induction s as [|c s IH]; [done|]. intros H. cbn [trimStart].
  destruct (is_ws c); [|done]. cbn [ascii_text] in H.
  apply andb_true_iff in H as [_ H]. by apply IH.
Qed.

Lemma ascii_text_trimEnd (s : string) : ascii_text s = true -> ascii_text (trimEnd s) = true.
Proof.
  induction s as [|c s IH]; [done|]. intros H. cbn [ascii_text] in H.
  apply andb_true_iff in H as [Hc H]. specialize (IH H). cbn [trimEnd].
  destruct (trimEnd s) as [|c' s'].
  - destruct (is_ws c); [done|]. cbn [ascii_text]. by rewrite Hc.
  - cbn [ascii_text] in *. by rewrite Hc, IH.
Qed.

(** X3.  On ASCII text, where [length] and [slice] count characters: the
    trimmed plain text is ASCII text, the excerpt of a gathered record is
    that text itself when it has at most 180 characters, and otherwise it
    is its first 180 characters followed by the truncation marker, with
    something cut off. *)
Theorem excerpt_is_a_bounded_prefix (random : string) (now : Z) (w : World) :
  ascii_text (quill_getText (editor w)) = true ->
  let plain := trim (quill_getText (editor w)) in
  let excerpt := Post.excerpt (gathered random now w) in
  ascii_text plain = true /\
  ((String.length plain <= 180)%nat -> excerpt = plain) /\
  ((180 < String.length plain)%nat ->
   exists head rest,
     excerpt = head +:+ ellipsis /\ String.length head = 180%nat /\
     plain = head +:+ rest /\ rest ≠ "").
Proof.
  intros Hascii plain excerpt. subst excerpt. rewrite gathered_excerpt. fold plain.
  split; [by apply ascii_text_trimEnd, ascii_text_trimStart|].
  unfold slice0. split; intros Hlen.
  - rewrite (proj2 (Nat.ltb_ge _ _)) by lia.
    rewrite substring_short by lia. apply append_empty.
  - rewrite (proj2 (Nat.ltb_lt _ _)) by lia.
    destruct (substring_prefix 180 plain) as [rest Hrest].
    exists (substring 0 180 plain), rest. split_and!; [done| |done|].
    + apply substring_long. lia.
    + intros ->. rewrite append_empty in Hrest.
      pose proof (substring_long 180 plain) as Hl. rewrite <- Hrest in Hl. lia.
Qed.

Lemma excerpt_is_a_bounded_prefix_witness :
  let short := after (edit "T" "<p>short</p>" "  short text ") fresh in
  let long := after (edit "T" "<p>long</p>" (repeat_char "A" 200)) fresh in
  (ascii_text (quill_getText (editor short)) = true /\
   (String.length (trim (quill_getText (editor short))) <= 180)%nat /\
   Post.excerpt (gathered "abc" 100 short) = "short text") /\
  (ascii_text (quill_getText (editor long)) = true /\
   (180 < String.length (trim (quill_getText (editor long))))%nat /\
   exists head rest,
     Post.excerpt (gathered "abc" 100 long) = head +:+ ellipsis /\
     String.length head = 180%nat /\
     trim (quill_getText (editor long)) = head +:+ rest /\ rest ≠ "").
Proof.
  split.
  - split; [reflexivity|]. split; [apply Nat.leb_le; reflexivity|].
    destruct (excerpt_is_a_bounded_prefix "abc" 100
                (after (edit "T" "<p>short</p>" "  short text ") fresh) eq_refl)
      as (_ & H & _).
    rewrite H; [reflexivity | apply Nat.leb_le; reflexivity].
  - split; [reflexivity|]. split; [apply Nat.ltb_lt; reflexivity|].
    destruct (excerpt_is_a_bounded_prefix "abc" 100
                (after (edit "T" "<p>long</p>" (repeat_char "A" 200)) fresh) eq_refl)
      as (_ & _ & H).
    apply H. apply Nat.ltb_lt. reflexivity.
Defined.

(** *** The markup filter of the validation *)









(** ** The record store: lookup after a write *)

Lemma has_id_same (p : Post.t) : has_id (Some (Post.id p)) p = true.
Proof. simpl. apply String.eqb_refl. Qed.

Lemma find_cons {A} (p : A -> bool) (x : A) (l : list A) :
  find p (x :: l) = if p x then Some x else find p l.
Proof. reflexivity. Qed.

Lemma find_upsert (arr : list Post.t) (item : Post.t) :
  find (has_id (Some (Post.id item))) (upsert arr item) = Some item.
Proof.
  induction arr as [|x arr IH].
  - rewrite upsert_nil, find_cons. by rewrite has_id_same.
  - rewrite upsert_cons. destruct (same_id item x) eqn:E; rewrite find_cons.
    + by rewrite has_id_same.
    + unfold same_id in E. simpl. by rewrite E.
Qed.

Lemma find_upsert_other (arr : list Post.t) (item : Post.t) (id : string) :
  id ≠ Post.id item ->
  find (has_id (Some id)) (upsert arr item) = find (has_id (Some id)) arr.
Proof.
  intros Hne. assert (has_id (Some id) item = false) as Hitem.
  { simpl. apply String.eqb_neq. congruence. }
  induction arr as [|x arr IH].
  - rewrite upsert_nil, find_cons. by rewrite Hitem.
  - rewrite upsert_cons. destruct (same_id item x) eqn:E; rewrite !find_cons.
    + apply same_id_true in E. rewrite Hitem.
      replace (has_id (Some id) x) with false; [done|].
      symmetry. simpl. apply String.eqb_neq. congruence.
    + by rewrite IH.
Qed.

Lemma find_removeById (arr : list Post.t) (id : string) :
  find (has_id (Some id)) (removeById arr id) = None.
Proof.
  apply find_absent. intros x Hx. apply list_elem_of_filter in Hx as [Hne _].
  simpl. by apply String.eqb_neq.
Qed.

Lemma find_removeById_other (arr : list Post.t) (id id' : string) :
  id' ≠ id ->
  find (has_id (Some id')) (removeById arr id) = find (has_id (Some id')) arr.
Proof.
  intros Hne. unfold removeById. induction arr as [|x arr IH]; [done|].
  rewrite filter_cons. case_decide as Hx.
  - rewrite !find_cons. by rewrite IH.
  - rewrite find_cons, IH.
    assert (Post.id x = id) as Hid by (destruct (decide (Post.id x = id)); [done|by destruct Hx]).
    replace (has_id (Some id') x) with false; [done|].
    symmetry. simpl. apply String.eqb_neq. congruence.
Qed.

Lemma removeById_absent (arr : list Post.t) (id : string) :
  id ∉ Post.id <$> arr -> removeById arr id = arr.
Proof.
  unfold removeById. induction arr as [|x arr IH]; intros Hno; [done|].
  rewrite fmap_cons in Hno. apply not_elem_of_cons in Hno as [Hne Hno].
  rewrite filter_cons_True by congruence. by rewrite IH.
Qed.

Lemma removeById_twice (arr : list Post.t) (id : string) :
  removeById (removeById arr id) id = removeById arr id.
Proof. apply removeById_absent, removeById_gone. Qed.

Lemma stored_saveArray_same (ls : LocalStorage) (key : collection) (arr : list Post.t) :
  stored (saveArray ls key arr) key = arr.
Proof. by destruct key. Qed.

Lemma BlogStore_deletePost_run (id : string) (w : World) :
  BlogStore_deletePost id w =
  (Normal tt,
   with_localStorage w
     (saveArray (localStorage w) posts (removeById (stored (localStorage w) posts) id))).
Proof. unfold BlogStore_deletePost, bind. by rewrite BlogStore_getPosts_run. Qed.

(** X5.  A post published to local storage is the one [getPostById] then
    returns for its identifier, whatever the collection held before; the
    lookup of every other identifier is as before, and the drafts and the
    settings are not touched. *)
Theorem publish_then_getPostById (post : Post.t) (w : World) :
  let w' := after (BlogStore_publish post) w in
  result (BlogStore_getPostById (Some (Post.id post))) w' = Normal (Some post) /\
  (forall id, id ≠ Post.id post ->
     result (BlogStore_getPostById (Some id)) w' = result (BlogStore_getPostById (Some id)) w) /\
  ls_drafts (localStorage w') = ls_drafts (localStorage w) /\
  ls_gh (localStorage w') = ls_gh (localStorage w).
Proof.
  cbv zeta. unfold after, result. rewrite BlogStore_publish_run. cbn [snd].
  split_and!; [| |done|done].
  - rewrite BlogStore_getPostById_run. cbn [fst localStorage with_localStorage].
    by rewrite stored_saveArray_same, find_upsert.
  - intros id Hne. rewrite !BlogStore_getPostById_run.
    cbn [fst localStorage with_localStorage].
    by rewrite stored_saveArray_same, find_upsert_other.
Qed.

Lemma publish_then_getPostById_witness :
  let w := after (BlogStore_publish (record "p_1" "One" 1)) fresh in
  "p_1" ≠ Post.id (record "p_2" "Two" 2) /\
  result (BlogStore_getPostById (Some "p_1")) (after (BlogStore_publish (record "p_2" "Two" 2)) w)
  = Normal (Some (record "p_1" "One" 1)).
Proof.
  split; [discriminate|].
  destruct (publish_then_getPostById (record "p_2" "Two" 2)
              (after (BlogStore_publish (record "p_1" "One" 1)) fresh)) as (_ & H & _).
  rewrite (H "p_1"); [reflexivity | discriminate].
Defined.

(** X6.  After [deletePost(id)] no post is found for [id], however many
    records carried it; every other identifier is found as before; the
    order of the remaining posts is kept; drafts and settings are not
    touched.  The same holds of [deleteDraft] on the drafts. *)
Theorem delete_removes_every_copy (id : string) (w : World) :
  let w' := after (BlogStore_deletePost id) w in
  let w'' := after (BlogStore_deleteDraft id) w in
  result (BlogStore_getPostById (Some id)) w' = Normal None /\
  (forall id', id' ≠ id ->
     result (BlogStore_getPostById (Some id')) w' = result (BlogStore_getPostById (Some id')) w) /\
  (stored (localStorage w') posts `sublist_of` stored (localStorage w) posts) /\
  ls_drafts (localStorage w') = ls_drafts (localStorage w) /\
  ls_gh (localStorage w') = ls_gh (localStorage w) /\
  (id ∉ local_ids w'' drafts) /\
  (forall id', id' ≠ id -> (id' ∈ local_ids w'' drafts <-> id' ∈ local_ids w drafts)) /\
  ls_posts (localStorage w'') = ls_posts (localStorage w).
Proof.
  cbv zeta. unfold after, result, local_ids.
  rewrite BlogStore_deletePost_run, BlogStore_deleteDraft_run. cbn [snd].
  rewrite !BlogStore_getPostById_run. cbn [fst localStorage with_localStorage].
  rewrite !stored_saveArray_same. split_and!.
  - by rewrite find_removeById.
  - intros id' Hne. rewrite !BlogStore_getPostById_run.
    cbn [fst localStorage with_localStorage].
    by rewrite stored_saveArray_same, find_removeById_other.
  - apply sublist_filter.
  - done.
  - done.
  - apply removeById_gone.
  - intros id' Hne. rewrite removeById_ids. tauto.
  - done.
Qed.

Lemma delete_removes_every_copy_witness :
  let w := run [Edit "T" "<p>x</p>" "x"; SaveDraftLocal "abc" 100] fresh in
  "p_other" ≠ "p_abc2s" /\
  local_ids w drafts = ["p_abc2s"] /\
  local_ids (after (BlogStore_deleteDraft "p_other") w) drafts = ["p_abc2s"] /\
  ("p_abc2s" ∈ local_ids (after (BlogStore_deleteDraft "p_other") w) drafts <->
   "p_abc2s" ∈ local_ids w drafts).
Proof.
  split; [discriminate|]. split; [reflexivity|]. split; [reflexivity|].
  destruct (delete_removes_every_copy "p_other"
              (run [Edit "T" "<p>x</p>" "x"; SaveDraftLocal "abc" 100] fresh))
    as (_ & _ & _ & _ & _ & _ & H & _).
  apply H. discriminate.
Defined.

(** X7.  Deleting an identifier the collection does not hold leaves the
    array read back unchanged, and deleting twice is deleting once. *)
Theorem delete_absent_changes_nothing (id : string) (w : World) :
  let w' := after (BlogStore_deleteDraft id) w in
  (id ∉ local_ids w drafts ->
   stored (localStorage w') drafts = stored (localStorage w) drafts) /\
  after (BlogStore_deleteDraft id) w' = w' /\
  (forall arr, removeById (removeById arr id) id = removeById arr id).
Proof.
  cbv zeta. unfold after, local_ids. rewrite !BlogStore_deleteDraft_run. cbn [snd].
  cbn [localStorage with_localStorage]. rewrite !stored_saveArray_same. split_and!.
  - intros Hno. by apply removeById_absent.
  - rewrite removeById_twice. by destruct w as [[d p g] r e u].
  - intros arr. apply removeById_twice.
Qed.

Lemma delete_absent_changes_nothing_witness :
  let w := run [Edit "T" "<p>x</p>" "x"; SaveDraftLocal "abc" 100] fresh in
  ("p_other" ∉ local_ids w drafts) /\
  stored (localStorage (after (BlogStore_deleteDraft "p_other") w)) drafts
  = stored (localStorage w) drafts.
Proof.
  assert ("p_other" ∉ local_ids
            (run [Edit "T" "<p>x</p>" "x"; SaveDraftLocal "abc" 100] fresh) drafts) as Hno.
  { vm_compute. intros H. apply list_elem_of_singleton in H. discriminate H. }
  split; [exact Hno|].
  destruct (delete_absent_changes_nothing "p_other"
              (run [Edit "T" "<p>x</p>" "x"; SaveDraftLocal "abc" 100] fresh)) as [H _].
  exact (H Hno).
Defined.

(** X8.  A slot whose text is not JSON, or that is missing, reads as the
    empty array, and the first write replaces it by a well-formed array:
    a saved draft is then the only draft, and a delete leaves the empty
    array. *)
Theorem write_replaces_corrupt_slot (draft : Post.t) (id : string) (w : World) :
  (forall arr, ls_drafts (localStorage w) ≠ Some (Json arr)) ->
  ls_drafts (localStorage (after (BlogStore_saveDraft draft) w)) = Some (Json [draft]) /\
  ls_drafts (localStorage (after (BlogStore_deleteDraft id) w)) = Some (Json []) /\
  result BlogStore_getDrafts w = Normal [].
Proof.
  intros Hbad. unfold after, result.
  rewrite BlogStore_saveDraft_run, BlogStore_deleteDraft_run, BlogStore_getDrafts_run.
  assert (stored (localStorage w) drafts = []) as ->; [|done].
  unfold stored. simpl. destruct (ls_drafts (localStorage w)) as [[raw|arr]|]; try done.
  by destruct (Hbad arr).
Qed.

Lemma write_replaces_corrupt_slot_witness :
  let w := with_localStorage fresh
             {| ls_drafts := Some (Unparseable "[{oops"); ls_posts := None; ls_gh := None |} in
  (forall arr, ls_drafts (localStorage w) ≠ Some (Json arr)) /\
  ls_drafts (localStorage (after (BlogStore_saveDraft (record "p_1" "One" 1)) w))
  = Some (Json [record "p_1" "One" 1]).
Proof.
  assert (forall arr : list Post.t,
            ls_drafts (localStorage
              (with_localStorage fresh
                 {| ls_drafts := Some (Unparseable "[{oops"); ls_posts := None;
                    ls_gh := None |})) ≠ Some (Json arr)) as Hbad.
  { intros arr. discriminate. }
  split; [exact Hbad|].
  destruct (write_replaces_corrupt_slot (record "p_1" "One" 1) "p_1" _ Hbad) as [H _].
  exact H.
Defined.

(** ** The editor: identifiers, loading, settings, the draft list *)

Lemma generateId_truthy (random : string) (now : Z) : truthy (generateId random now) = true.
Proof. unfold generateId. rewrite append_cons. reflexivity. Qed.

Lemma draft_id_truthy (current : option string) (random : string) (now : Z) :
  truthy (draft_id current random now) = true.
Proof.
  unfold draft_id. destruct current as [id|]; [|apply generateId_truthy].
  destruct (truthy id) eqn:E; [done | apply generateId_truthy].
Qed.

Lemma draft_id_current (id random : string) (now : Z) :
  truthy id = true -> draft_id (Some id) random now = id.
Proof. intros H. unfold draft_id. by rewrite H. Qed.

Lemma truthy_nonempty (s : string) : truthy s = true <-> s ≠ "".
Proof. unfold truthy. rewrite negb_true_iff. apply String.eqb_neq. Qed.

(** X9.  A local save makes the saved draft the current one: the next local
    save, whatever was typed in between, takes the same identifier and
    replaces that draft, so the list of draft identifiers does not change
    and the draft found under the identifier is the newly gathered one. *)
Theorem resave_replaces_the_draft
    (random random' title html plain : string) (now now' : Z) (w : World) :
  let w1 := after (saveDraftLocal_click random now) w in
  let edited := after (edit title html plain) w1 in
  let w2 := after (saveDraftLocal_click random' now') edited in
  let id := Post.id (gathered random now w) in
  Post.id (gathered random' now' edited) = id /\
  Post.id <$> stored (localStorage w2) drafts = Post.id <$> stored (localStorage w1) drafts /\
  find (has_id (Some id)) (stored (localStorage w2) drafts)
  = Some (gathered random' now' edited).
Proof.
  intros w1 edited w2 id.
  destruct (saveDraftLocal_click_world random now w) as (Hls1 & _ & Hcur1).
  fold w1 in Hls1, Hcur1.
  assert (Post.id (gathered random' now' edited) = id) as Hid.
  { rewrite gathered_id. subst edited. unfold after. simpl. rewrite Hcur1.
    apply draft_id_current. subst id. rewrite gathered_id. apply draft_id_truthy. }
  destruct (saveDraftLocal_click_world random' now' edited) as (Hls2 & _ & _).
  fold w2 in Hls2. rewrite Hls2, stored_saveArray_same.
  change (localStorage edited) with (localStorage w1).
  split_and!; [done| |].
  - rewrite upsert_ids, decide_True; [done|].
    rewrite Hid, Hls1, stored_saveArray_same. subst id.
    apply list_elem_of_fmap_2, upsert_elem.
  - rewrite <- Hid. apply find_upsert.
Qed.

(** [find] gives the first record with the identifier. *)
Lemma find_first (arr : list Post.t) (id : string) :
  id ∈ Post.id <$> arr ->
  exists before d later,
    arr = (before ++ d :: later)%list /\ (id ∉ Post.id <$> before) /\ Post.id d = id /\
    find (has_id (Some id)) arr = Some d.
Proof.
  induction arr as [|x arr IH]; intros Hin; [inversion Hin|].
  rewrite find_cons. destruct (has_id (Some id) x) eqn:E.
  - exists [], x, arr. split_and!; [done| |by apply String.eqb_eq in E|done].
    rewrite fmap_nil. apply not_elem_of_nil.
  - assert (Post.id x ≠ id) as Hx.
    { intros Hid. simpl in E. rewrite Hid, String.eqb_refl in E. done. }
    rewrite fmap_cons in Hin. apply elem_of_cons in Hin as [Hid|Hin]; [done|].
    destruct (IH Hin) as (before & d & later & Harr & Hno & Hid & Hfind).
    exists (x :: before), d, later. split_and!; [by rewrite Harr| |done|done].
    rewrite fmap_cons. intros Hel. apply elem_of_cons in Hel as [Hel|Hel]; [done|].
    by apply Hno.
Qed.

Lemma loadDraft_run (id plain : string) (w : World) :
  loadDraft id plain w =
  (Normal tt,
   match find (has_id (Some id)) (stored (localStorage w) drafts) with
   | None => w
   | Some draft =>
       with_editor w
         {| titleInput := Post.title draft; quill_innerHTML := Post.content draft;
            quill_getText := plain; currentDraftId := Some id;
            coverDataUrl := Post.cover draft |}
   end).
Proof.
  unfold loadDraft, bind. rewrite BlogStore_getDrafts_run.
  by destruct (find (has_id (Some id)) (stored (localStorage w) drafts)).
Qed.

(** X10.  [loadDraft] of an identifier that is not among the drafts changes
    nothing.  For one that is, it puts the first stored draft with that
    identifier (no draft stored before it has the identifier) into the
    editor, title, markup and cover, makes the identifier the current one
    and leaves storage as it was; when the identifier is not empty, the
    next local save is gathered under that identifier and adds no draft. *)
Theorem loadDraft_selects_the_draft (id plain : string) (w : World) :
  let w' := after (loadDraft id plain) w in
  (id ∉ local_ids w drafts -> w' = w) /\
  (id ∈ local_ids w drafts ->
   exists before draft later,
     stored (localStorage w) drafts = (before ++ draft :: later)%list /\
     (id ∉ Post.id <$> before) /\ Post.id draft = id /\
     titleInput (editor w') = Post.title draft /\
     quill_innerHTML (editor w') = Post.content draft /\
     coverDataUrl (editor w') = Post.cover draft /\
     currentDraftId (editor w') = Some id /\
     localStorage w' = localStorage w /\
     (id ≠ "" ->
      forall random now,
        Post.id (gathered random now w') = id /\
        Post.id <$> stored (localStorage (after (saveDraftLocal_click random now) w')) drafts
        = local_ids w drafts)).
Proof.
  intros w'. subst w'. unfold after, local_ids. rewrite loadDraft_run. split.
  - intros Hno. rewrite find_absent; [done|].
    intros x Hx. simpl. apply String.eqb_neq. intros Hid. apply Hno.
    rewrite <- Hid. by apply list_elem_of_fmap_2.
  - intros Hin.
    destruct (find_first _ _ Hin) as (before & d & later & Harr & Hno & Hid & Hfind).
    rewrite Hfind. cbn [snd]. exists before, d, later. split_and!; try done.
    intros Hne random now.
    set (w1 := with_editor w _).
    assert (Post.id (gathered random now w1) = id) as Hg.
    { rewrite gathered_id. simpl. apply draft_id_current. by apply truthy_nonempty. }
    split; [done|].
    destruct (saveDraftLocal_click_world random now w1) as (Hls & _ & _).
    unfold after in Hls. rewrite Hls.
    rewrite stored_saveArray_same, upsert_ids, Hg. simpl.
    by rewrite decide_True.
Qed.

Lemma loadDraft_selects_the_draft_witness :
  ("p_x" ∈ local_ids stored_twice drafts /\
   titleInput (editor (after (loadDraft "p_x" "text") stored_twice)) = "First" /\
   exists before draft later,
     stored (localStorage stored_twice) drafts = (before ++ draft :: later)%list /\
     ("p_x" ∉ Post.id <$> before) /\
     titleInput (editor (after (loadDraft "p_x" "text") stored_twice)) = Post.title draft) /\
  (("p_missing" ∉ local_ids stored_twice drafts) /\
   after (loadDraft "p_missing" "") stored_twice = stored_twice).
Proof.
  assert ("p_x" ∈ local_ids stored_twice drafts) as Hin by (vm_compute; left).
  assert ("p_missing" ∉ local_ids stored_twice drafts) as Hno.
  { vm_compute. intros H. apply elem_of_cons in H as [H|H]; [discriminate H|].
    apply list_elem_of_singleton in H. discriminate H. }
  split.
  - split; [exact Hin|]. split; [reflexivity|].
    destruct (loadDraft_selects_the_draft "p_x" "text" stored_twice) as [_ H].
    destruct (H Hin) as (before & draft & later & Harr & Hbefore & _ & Htitle & _).
    exists before, draft, later. split; [exact Harr|]. split; [exact Hbefore | exact Htitle].
  - split; [exact Hno|].
    destruct (loadDraft_selects_the_draft "p_missing" "" stored_twice) as [H _].
    exact (H Hno).
Defined.

(** X11.  Saving the settings stores the four inputs trimmed, with the
    branch ['main'] when the input is blank; afterwards the editor is in
    GitHub mode exactly when owner, repository and token are not blank,
    and the reader reads the repository exactly when owner and repository
    are not blank.  Clearing the settings ends both.  Neither touches the
    drafts, the posts or the repository. *)
Theorem settings_save_and_clear (o r b t : string) (w : World) :
  let saved := after (ghSave_click o r b t) w in
  let cleared := after ghClear_click w in
  settings saved =
    Some {| owner := Some (trim o); repo := Some (trim r);
            branch := Some (if truthy (trim b) then trim b else "main");
            token := Some (trim t) |} /\
  all_four (settings saved) = truthy (trim o) && truthy (trim r) && truthy (trim t) /\
  reads_remote (settings saved) = truthy (trim o) && truthy (trim r) /\
  all_four (settings cleared) = false /\
  reads_remote (settings cleared) = false /\
  (forall key, getItem (localStorage saved) key = getItem (localStorage w) key /\
               getItem (localStorage cleared) key = getItem (localStorage w) key) /\
  github saved = github w /\ github cleared = github w.
Proof.
  cbv zeta. split_and!; try reflexivity.
  - unfold after. simpl. destruct (truthy (trim b)) eqn:Hb.
    + rewrite Hb. by rewrite andb_true_r.
    + by rewrite andb_true_r.
  - unfold after. simpl. destruct (truthy (trim b)) eqn:Hb.
    + rewrite Hb. by rewrite andb_true_r.
    + by rewrite andb_true_r.
  - intros key. by destruct key.
Qed.

Lemma newest_draft_first_insert (x : Post.t) (l : list Post.t) :
  StronglySorted not_older_draft l ->
  StronglySorted not_older_draft (sort_insert newest_draft_first x l).
Proof.
  induction 1 as [|y l Hs IH Hall]; simpl.
  - repeat constructor.
  - unfold newest_draft_first at 1.
    destruct (Z.gtb_spec (Post.updatedAt y - Post.updatedAt x) 0) as [Hgt|Hle].
    + constructor; [done|].
      rewrite Forall_forall. intros z Hz.
      rewrite sort_insert_perm in Hz. apply elem_of_cons in Hz as [->|Hz].
      * unfold not_older_draft. lia.
      * rewrite Forall_forall in Hall. by apply Hall.
    + constructor; [by constructor|].
      constructor; [unfold not_older_draft; lia|].
      eapply Forall_impl; [exact Hall|]. unfold not_older_draft. intros z Hz. lia.
Qed.

(** X12.  The draft list shows every stored draft, each as often as it is
    stored, newest first by [updatedAt], and leaves the world as it was. *)
Theorem listDrafts_newest_first (w : World) :
  exists shown,
    listDrafts w = (Normal shown, w) /\
    shown ≡ₚ stored (localStorage w) drafts /\
    StronglySorted not_older_draft shown.
Proof.
  exists (Array_sort newest_draft_first (stored (localStorage w) drafts)).
  split_and!.
  - unfold listDrafts, bind. by rewrite BlogStore_getDrafts_run.
  - apply Array_sort_perm.
  - induction (stored (localStorage w) drafts) as [|x l IH]; simpl; [constructor|].
    by apply newest_draft_first_insert.
Qed.

(** ** What the handlers report *)

Lemma saveDraftGh_click_run (random : string) (now : Z) (w : World) :
  saveDraftGh_click random now w =
  if all_four (settings w) then
    try_catch
      (saveToGitHub drafts (gathered random now w) ;;; alert "Draft saved to GitHub.")
      (fun _ => alert "Failed saving draft to GitHub.") w
  else alert "Configure GitHub settings first." w.
Proof.
  unfold saveDraftGh_click. unfold bind at 1. rewrite hasGhConfig_run.
  by destruct (all_four (settings w)).
Qed.

(** X14.  When a publish to GitHub fails, the handler stays on the page
    with the failure alert and falls back to nothing: local storage, with
    the local draft and the local posts, and the editor are as before. *)
Theorem failed_remote_publish_keeps_local_state (random : string) (now : Z) (w : World) :
  let d := gathered random now w in
  let w' := after (publish_click random now) w in
  invalid d = false ->
  all_four (settings w) = true ->
  (exists e, result (saveToGitHub posts d) w = Throw e) ->
  localStorage w' = localStorage w /\
  editor w' = editor w /\
  ui w' = (ui w ++ [Alert "Failed publishing to GitHub. Check settings/token."])%list.
Proof.
  intros d w' Hvalid Hcfg [e He].
  destruct (publish_click_world random now w)
    as [[Hinv _]|[(_ & _ & _ & [[Hok _]|[_ Hw]])|(_ & Hoff & _)]];
    fold d in Hinv || fold d in Hok || idtac; try congruence.
  fold w' d in Hw. by rewrite Hw.
Qed.

Lemma failed_remote_publish_keeps_local_state_witness :
  let w := failing (after (saveDraftLocal_click "abc" 100) (written configured))
             [Up; Up; Up; Up; Refuse ServerError] in
  let w' := after (publish_click "z" 300) w in
  result (saveToGitHub posts (gathered "z" 300 w)) w = Throw (HttpError 500) /\
  local_ids w' drafts = ["p_abc2s"] /\
  local_ids w' posts = [] /\
  remote_has w' posts "p_abc2s" /\
  index_file posts w' = None.
Proof.
  split; [vm_compute; reflexivity|].
  destruct (failed_remote_publish_keeps_local_state "z" 300
              (failing (after (saveDraftLocal_click "abc" 100) (written configured))
                 [Up; Up; Up; Up; Refuse ServerError])) as (Hls & _ & _).
  - reflexivity.
  - reflexivity.
  - exists (HttpError 500). vm_compute. reflexivity.
  - unfold local_ids. rewrite Hls.
    split; [reflexivity|]. split; [reflexivity|].
    split; [vm_compute; eauto | vm_compute; reflexivity].
Defined.

(** X15.  A valid publish without complete settings writes the post to
    local storage, and the reader then shows that very record for its
    identifier, provided the repository, if the reader consults it, has
    no file for the identifier. *)
Theorem local_publish_then_resolve (random : string) (now : Z) (w : World) :
  let d := gathered random now w in
  let w' := after (publish_click random now) w in
  invalid d = false ->
  all_four (settings w) = false ->
  remote_post (Some (Post.id d)) (github w) = None ->
  published w w' (Post.id d) /\
  result (resolve (Some (Post.id d))) w' = Normal (Some (JPost d)).
Proof.
  intros d w' Hvalid Hcfg Hremote.
  destruct (publish_click_world random now w)
    as [[Hinv _]|[(_ & Hon & _)|(_ & _ & Hw)]];
    fold d in Hinv || idtac; try congruence.
  fold w' d in Hw. split; [unfold published; by rewrite Hw|].
  unfold result. rewrite resolve_run.
  assert (local_post w' (Some (Post.id d)) = Some (JPost d)) as Hlocal.
  { unfold local_post. rewrite Hw. cbn [localStorage with_ui with_localStorage].
    rewrite stored_saveArray. cbn [decide_rel].
    rewrite decide_False by done. rewrite stored_saveArray_same.
    by rewrite find_upsert. }
  assert (github w' = github w) as Hgh by (by rewrite Hw).
  destruct (reads_remote (settings w')); cbn [fst]; [|by rewrite Hlocal].
  by rewrite Hgh, Hremote, Hlocal.
Qed.

Lemma local_publish_then_resolve_witness :
  let w := written fresh in
  invalid (gathered "abc" 100 w) = false /\
  result (resolve (Some "p_abc2s")) (after (publish_click "abc" 100) w)
  = Normal (Some (JPost (gathered "abc" 100 w))).
Proof.
  split; [reflexivity|].
  destruct (local_publish_then_resolve "abc" 100 (written fresh)) as [_ H];
    [reflexivity|reflexivity|reflexivity|exact H].
Defined.

(** ** The repository with the network up *)

Lemma tokens_present_truthy (w : World) (path : string) :
  tokens_present w ->
  looked_up path (github w) = (if delivered (github w) then snd <$> files (github w) !! path else None).
Proof.
  intros Htok. unfold looked_up. destruct (delivered (github w)); [|done].
  destruct (files (github w) !! path) as [[t sha]|] eqn:Hf; [|done]. simpl.
  replace (truthy sha) with true; [done|].
  symmetry. apply truthy_nonempty. by eapply Htok.
Qed.

(** [putFile] with the network up: the lookup, then the write with the
    token found, which the server accepts. *)
Lemma putFile_up (path : string) (t : item json) (msg : string) (w : World) (s : GhSettings) :
  settings w = Some s -> network_up w -> tokens_present w ->
  putFile path t msg w =
  (Normal (Contents ("sha" +:+ toString36 (commits (github w)))),
   with_github w (put_done path t msg s (github w))).
Proof.
  intros Hs Hnet Htok. rewrite (putFile_run _ _ _ _ _ Hs).
  rewrite (tokens_present_truthy _ _ Htok). unfold delivered, network_up in *. rewrite Hnet.
  unfold GitHubClient_request, bind. rewrite getGhSettings_run, settings_with_github, Hs.
  unfold fetch, put_done. cbn [github with_github sent net tail files log commits serve put_sha].
  rewrite Hnet. cbn [tail].
  destruct (decide (snd <$> files (github w) !! path = snd <$> files (github w) !! path))
    as [_|Hne]; [|done].
  destruct (snd <$> files (github w) !! path) as [sha|]; cbn;
    by rewrite <- app_assoc.
Qed.

Lemma put_done_up (path : string) (t : item json) (msg : string) (s : GhSettings) (w : World) :
  tokens_present w ->
  network_up (with_github w (put_done path t msg s (github w))) /\
  tokens_present (with_github w (put_done path t msg s (github w))) /\
  settings (with_github w (put_done path t msg s (github w))) = settings w.
Proof.
  intros Htok. split_and!; [done| |done].
  intros p t0 sha. cbn [github with_github put_done files].
  rewrite lookup_insert. case_decide as Hp.
  - intros [= <- <-]. rewrite append_cons. discriminate.
  - apply Htok.
Qed.

(** X16.  With the settings in place and the network up, [putFile] sends
    the lookup and then the write carrying the token the path has (none
    for a new path), returns, and a raw read of the path then gives back
    the content written; no other path is touched. *)
Theorem putFile_then_readRaw (path : string) (t : item json) (msg : string)
    (w : World) (s : GhSettings) :
  settings w = Some s -> network_up w -> tokens_present w ->
  let w' := after (putFile path t msg) w in
  (exists d, result (putFile path t msg) w = Normal d) /\
  result (readRaw path) w' = Normal t /\
  (forall p, p ≠ path -> files (github w') !! p = files (github w) !! p) /\
  log (github w') =
    (log (github w) ++
     [GET_contents path;
      PUT_contents path {| message := msg; put_content := t; put_branch := branch s;
                           put_sha := snd <$> files (github w) !! path |}])%list.
Proof.
  intros Hs Hnet Htok w'. subst w'. unfold result, after.
  rewrite (putFile_up _ _ _ _ _ Hs Hnet Htok). cbn [fst snd].
  split_and!.
  - by eexists.
  - rewrite (readRaw_run _ _ s) by done. cbn [fst]. unfold raw_read.
    cbn [github with_github put_done net files]. by rewrite lookup_insert_eq.
  - intros p Hp. cbn [github with_github put_done files]. by rewrite lookup_insert_ne.
  - done.
Qed.

Lemma putFile_then_readRaw_witness :
  let w := holding configured [("posts/p_a.json", Json (JPost (record "p_a" "A" 1)))] in
  let w' := after (putFile "posts/p_a.json" (Json (JPost (record "p_a" "B" 2))) "m") w in
  network_up w /\
  result (readRaw "posts/p_a.json") w' = Normal (Json (JPost (record "p_a" "B" 2))) /\
  log (github w') =
    [GET_contents "posts/p_a.json";
     PUT_contents "posts/p_a.json"
       {| message := "m"; put_content := Json (JPost (record "p_a" "B" 2));
          put_branch := Some "main"; put_sha := Some "v" |}].
Proof.
  split; [reflexivity|].
  destruct (putFile_then_readRaw "posts/p_a.json" (Json (JPost (record "p_a" "B" 2))) "m"
              (holding configured [("posts/p_a.json", Json (JPost (record "p_a" "A" 1)))])
              {| owner := Some "owner"; repo := Some "repo";
                 branch := Some "main"; token := Some "token" |})
    as (_ & Hread & _ & Hlog).
  - reflexivity.
  - reflexivity.
  - intros p t0 sha. cbn [holding github with_github files fmap list_fmap list_to_map foldr].
    rewrite lookup_insert. case_decide; [intros [= <- <-]; discriminate|].
    rewrite lookup_empty. discriminate.
  - split; [exact Hread|]. rewrite Hlog. vm_compute. reflexivity.
Defined.

(** X17.  When the raw read of the index fails (the request is lost or
    refused) while the lookup and the write that follow go through,
    [upsertIndex] returns and the index file holds the new entry alone:
    whatever entries the index listed before are gone. *)
Theorem index_replaced_when_read_fails (kind : collection) (meta : Meta.t)
    (w : World) (s : GhSettings) (o : outage) :
  settings w = Some s -> net (github w) = [o] -> o ≠ Up -> tokens_present w ->
  result (upsertIndex kind meta) w = Normal tt /\
  index_file kind (after (upsertIndex kind meta) w) = Some [meta].
Proof.
  intros Hs Hnet Ho Htok. unfold result, after, index_file.
  rewrite (upsertIndex_run _ _ _ _ Hs). cbv zeta.
  set (w1 := with_github w (sent (GET_raw (index_path kind)) (github w))).
  assert (network_up w1) as Hup by (unfold network_up, w1; simpl; by rewrite Hnet).
  assert (tokens_present w1) as Htok1 by exact Htok.
  assert (raw_read (index_path kind) (github w) = Throw NetworkError \/
          exists f, raw_read (index_path kind) (github w) = Throw (HttpError (status_of f)))
    as Hraw.
  { unfold raw_read. rewrite Hnet. destruct o as [| |f]; [done|by left|right; by exists f]. }
  assert ((putFile (index_path kind) (Json (JIndex (updated_index [] meta)))
             (index_message kind meta) ;;; ret tt) w1
          = (Normal tt, with_github w1
                          (put_done (index_path kind) (Json (JIndex (updated_index [] meta)))
                             (index_message kind meta) s (github w1)))) as Hput.
  { unfold bind. by rewrite (putFile_up _ _ _ _ s). }
  destruct Hraw as [-> | [f ->]]; rewrite Hput; cbn [fst snd github with_github put_done files];
    by rewrite lookup_insert_eq.
Qed.

Lemma index_replaced_when_read_fails_witness :
  let w := failing (holding configured
                      [("posts/index.json", Json (JIndex [entry "b" 300; entry "a" 100]))])
             [Refuse Unavailable] in
  index_file posts w = Some [entry "b" 300; entry "a" 100] /\
  result (upsertIndex posts (entry "c" 200)) w = Normal tt /\
  index_file posts (after (upsertIndex posts (entry "c" 200)) w) = Some [entry "c" 200].
Proof.
  split; [vm_compute; reflexivity|].
  apply (index_replaced_when_read_fails posts (entry "c" 200)
           (failing (holding configured
                       [("posts/index.json", Json (JIndex [entry "b" 300; entry "a" 100]))])
              [Refuse Unavailable])
           {| owner := Some "owner"; repo := Some "repo";
              branch := Some "main"; token := Some "token" |} (Refuse Unavailable)).
  - reflexivity.
  - reflexivity.
  - discriminate.
  - intros p t0 sha. cbn [failing holding github with_github files fmap list_fmap list_to_map foldr].
    rewrite lookup_insert. case_decide; [intros [= <- <-]; discriminate|].
    rewrite lookup_empty. discriminate.
Defined.

(** ** From a publish to the reader, through the repository *)

Lemma length_append (a b : string) :
  String.length (a +:+ b) = (String.length a + String.length b)%nat.
Proof. induction a as [|x a IH]; append_norm; simpl; [done | by rewrite IH]. Qed.

Lemma append_inv_tail (a b c : string) : a +:+ c = b +:+ c -> a = b.
Proof.
  revert b. induction a as [|x a IH]; intros [|y b]; append_norm; intros Heq.
  - done.
  - apply (f_equal String.length) in Heq. simpl in Heq. rewrite length_append in Heq. lia.
  - apply (f_equal String.length) in Heq. simpl in Heq. rewrite length_append in Heq. lia.
  - injection Heq as -> Heq. by rewrite (IH b Heq).
Qed.

(** The record file of a collection is its index file only for the
    identifier ["index"]. *)
Lemma record_path_index (kind : collection) (id : string) :
  record_path kind id = index_path kind -> id = "index".
Proof.
  unfold record_path, index_path. destruct kind; simpl kind_name; append_norm;
    intros Heq; injection Heq as Heq;
    change "index.json" with ("index" +:+ ".json") in Heq;
    by apply append_inv_tail in Heq.
Qed.

Lemma all_four_reads_remote (o : option GhSettings) :
  all_four o = true -> reads_remote o = true.
Proof.
  destruct o as [s|]; simpl; [|done]. rewrite !andb_true_iff. tauto.
Qed.

(** [saveToGitHub] with the network up: the record file, then the index. *)
Lemma saveToGitHub_up (kind : collection) (d : Post.t) (w : World) (s : GhSettings)
    (l : list Meta.t) :
  settings w = Some s -> network_up w -> tokens_present w ->
  Post.id d ≠ "index" ->
  index_read (files (github w) !! index_path kind) = Some l ->
  exists sha sha',
    result (saveToGitHub kind d) w = Normal tt /\
    net (github (after (saveToGitHub kind d) w)) = [] /\
    files (github (after (saveToGitHub kind d) w)) =
      <[index_path kind := (Json (JIndex (updated_index l (meta_of d))), sha')]>
        (<[record_path kind (Post.id d) := (Json (JPost d), sha)]> (files (github w))).
Proof.
  intros Hs Hnet Htok Hid Hread.
  assert (record_path kind (Post.id d) ≠ index_path kind) as Hpath.
  { intros Heq. by apply record_path_index in Heq. }
  set (w1 := with_github w
               (put_done (record_path kind (Post.id d)) (Json (JPost d))
                  ((match kind with
                    | posts => "feat: publish post"
                    | drafts => "chore: save draft"
                    end) +:+ " (" +:+ Post.id d +:+ ")") s (github w))).
  destruct (put_done_up (record_path kind (Post.id d)) (Json (JPost d))
              ((match kind with
                | posts => "feat: publish post"
                | drafts => "chore: save draft"
                end) +:+ " (" +:+ Post.id d +:+ ")") s w Htok) as (Hnet1 & Htok1 & Hs1).
  fold w1 in Hnet1, Htok1, Hs1. rewrite Hs in Hs1.
  set (w2 := with_github w1 (sent (GET_raw (index_path kind)) (github w1))).
  assert (network_up w2) as Hnet2 by done.
  unfold network_up in Hnet1.
  assert (tokens_present w2) as Htok2 by exact Htok1.
  assert (settings w2 = Some s) as Hs2 by exact Hs1.
  assert (files (github w1) !! index_path kind = files (github w) !! index_path kind) as Hsame.
  { unfold w1. cbn [github with_github put_done files]. by rewrite lookup_insert_ne. }
  assert (saveToGitHub kind d w =
          (Normal tt,
           with_github w2
             (put_done (index_path kind) (Json (JIndex (updated_index l (meta_of d))))
                (index_message kind (meta_of d)) s (github w2)))) as Hrun.
  { unfold saveToGitHub. unfold bind at 1.
    rewrite (putFile_up _ _ _ _ _ Hs Hnet Htok). fold w1.
    rewrite (upsertIndex_run _ _ _ _ Hs1). cbv zeta. fold w2.
    unfold raw_read. rewrite Hnet1, Hsame.
    destruct (files (github w) !! index_path kind) as [[[raw|[r|l0]] sha0]|] eqn:Hf;
      simpl in Hread; try done; injection Hread as <-;
      unfold bind; by rewrite (putFile_up _ _ _ _ s). }
  unfold result, after. rewrite Hrun. cbn [fst snd].
  by eexists _, _.
Qed.

(** X18.  With complete settings, the network up, an index file that is
    missing or holds an array, and an identifier other than ["index"], a
    valid publish succeeds: the record file holds the record, the index
    lists it exactly once, the local draft is gone, and the reader then
    shows that very record for its identifier. *)
Theorem remote_publish_then_resolve (random : string) (now : Z) (w : World)
    (l : list Meta.t) :
  let d := gathered random now w in
  let w' := after (publish_click random now) w in
  invalid d = false ->
  all_four (settings w) = true ->
  network_up w -> tokens_present w ->
  Post.id d ≠ "index" ->
  index_read (files (github w) !! index_path posts) = Some l ->
  published w w' (Post.id d) /\
  (exists sha, files (github w') !! record_path posts (Post.id d) = Some (Json (JPost d), sha)) /\
  index_file posts w' = Some (updated_index l (meta_of d)) /\
  ~ local_has w' drafts (Post.id d) /\
  result (resolve (Some (Post.id d))) w' = Normal (Some (JPost d)).
Proof.
  intros d w' Hvalid Hcfg Hnet Htok Hid Hread.
  pose proof Hcfg as Hs. apply all_four_spec in Hs as (s & Hs & _).
  destruct (saveToGitHub_up posts d w s l Hs Hnet Htok Hid Hread)
    as (sha & sha' & Hok & Hnet' & Hfiles).
  assert (record_path posts (Post.id d) ≠ index_path posts) as Hpath.
  { intros Heq. by apply record_path_index in Heq. }
  destruct (publish_click_world random now w)
    as [[Hinv _]|[(_ & _ & _ & [[_ Hw]|[[e He] _]])|(_ & Hoff & _)]];
    fold d in Hinv || fold d in He || idtac; try congruence.
  fold w' d in Hw.
  assert (github w' = github (after (saveToGitHub posts d) w)) as Hgh by (by rewrite Hw).
  assert (files (github w') !! record_path posts (Post.id d) = Some (Json (JPost d), sha))
    as Hrec.
  { rewrite Hgh, Hfiles. rewrite lookup_insert_ne by done. apply lookup_insert_eq. }
  split_and!.
  - unfold published. by rewrite Hw.
  - by exists sha.
  - unfold index_file. rewrite Hgh, Hfiles. by rewrite lookup_insert_eq.
  - unfold local_has, local_ids. rewrite Hw.
    cbn [localStorage with_ui with_localStorage with_github].
    rewrite stored_saveArray_same. apply removeById_gone.
  - unfold result. rewrite resolve_run.
    assert (settings w' = settings w) as -> by (by rewrite Hw).
    rewrite (all_four_reads_remote _ Hcfg). cbn [fst].
    unfold remote_post, raw_read. cbn [id_text].
    by rewrite Hgh, Hnet', <- Hgh, Hrec.
Qed.

Lemma remote_publish_then_resolve_witness :
  let w := after (saveDraftLocal_click "abc" 100) (written configured) in
  invalid (gathered "z" 300 w) = false /\
  Post.id (gathered "z" 300 w) = "p_abc2s" /\
  result (resolve (Some "p_abc2s")) (after (publish_click "z" 300) w)
  = Normal (Some (JPost (gathered "z" 300 w))).
Proof.
  split; [reflexivity|]. split; [reflexivity|].
  destruct (remote_publish_then_resolve "z" 300
              (after (saveDraftLocal_click "abc" 100) (written configured)) [])
    as (_ & _ & _ & _ & H).
  - reflexivity.
  - reflexivity.
  - reflexivity.
  - intros p t0 sha. vm_compute. discriminate.
  - discriminate.
  - reflexivity.
  - exact H.
Defined.

(** ** What the handlers keep *)

Lemma request_PUT_files (path : string) (body : put_body) (w : World) :
  files (github (after (GitHubClient_request (PUT_contents path body)) w)) = files (github w) \/
  exists sha,
    files (github (after (GitHubClient_request (PUT_contents path body)) w))
    = <[path := (put_content body, sha)]> (files (github w)).
Proof.
  unfold after, GitHubClient_request, bind. rewrite getGhSettings_run.
  destruct (settings w) as [s|]; [|by left].
  unfold fetch.
  destruct (net (github w)) as [|[| |f] n]; cbn [serve files];
    try (destruct (decide (snd <$> files (github w) !! path = put_sha body)) as [_|_];
         [destruct (snd <$> files (github w) !! path); cbn; right; by eexists
         | by left]).
  - by left.
  - rewrite refused_not_ok. by left.
Qed.

Lemma putFile_files (path : string) (t : item json) (msg : string) (w : World) :
  files (github (after (putFile path t msg) w)) = files (github w) \/
  exists sha,
    files (github (after (putFile path t msg) w)) = <[path := (t, sha)]> (files (github w)).
Proof.
  unfold after. destruct (settings w) as [s|] eqn:Hs.
  - rewrite (putFile_run _ _ _ _ _ Hs).
    match goal with |- context [GitHubClient_request (PUT_contents path ?b) ?w1] =>
      destruct (request_PUT_files path b w1) as [H|[sha H]]; unfold after in H
    end; [left | right; exists sha]; exact H.
  - rewrite (putFile_unconfigured _ _ _ _ Hs). by left.
Qed.

Lemma after_then {A} (m : M A) (k : M unit) (w : World) :
  after (m ;;; k) w = after m w \/ after (m ;;; k) w = after k (after m w).
Proof. unfold after, bind. destruct (m w) as [[a|e] w1]; [by right | by left]. Qed.

Lemma upsertIndex_files (kind : collection) (meta : Meta.t) (w : World) :
  files (github (after (upsertIndex kind meta) w)) = files (github w) \/
  exists sha existing,
    files (github (after (upsertIndex kind meta) w))
    = <[index_path kind := (Json (JIndex (updated_index existing meta)), sha)]>
        (files (github w)) /\
    (existing = [] \/
     exists sha0, files (github w) !! index_path kind = Some (Json (JIndex existing), sha0)).
Proof.
  destruct (settings w) as [s|] eqn:Hs.
  - unfold after. rewrite (upsertIndex_run _ _ _ _ Hs). cbv zeta.
    set (w1 := with_github w (sent (GET_raw (index_path kind)) (github w))).
    assert (forall l,
              files (github (snd ((putFile (index_path kind)
                                     (Json (JIndex (updated_index l meta)))
                                     (index_message kind meta) ;;; ret tt) w1)))
              = files (github w) \/
              exists sha,
                files (github (snd ((putFile (index_path kind)
                                       (Json (JIndex (updated_index l meta)))
                                       (index_message kind meta) ;;; ret tt) w1)))
                = <[index_path kind := (Json (JIndex (updated_index l meta)), sha)]>
                    (files (github w))) as Hput.
    { intros l.
      destruct (putFile_files (index_path kind) (Json (JIndex (updated_index l meta)))
                  (index_message kind meta) w1) as [H|[sha H]];
        unfold after in H; unfold bind;
        destruct (putFile _ _ _ w1) as [[a|e] w2]; cbn [snd fst ret] in *;
        [left|left|right; exists sha|right; exists sha]; exact H. }
    unfold raw_read.
    destruct (net (github w)) as [|[| |f] n];
      try (destruct (Hput []) as [H|[sha H]]; [by left | right; exists sha, []; by split; [|left]]);
      destruct (files (github w) !! index_path kind) as [[[raw|[r|l]] sha0]|] eqn:Hf;
      try (by left);
      try (destruct (Hput []) as [H|[sha H]]; [by left | right; exists sha, []; by split; [|left]]);
      destruct (Hput l) as [H|[sha H]];
      try (by left); right; exists sha, l; (split; [done | right; by exists sha0]).
  - left. unfold after, upsertIndex, bind.
    by rewrite (readJson_unconfigured _ _ Hs), putFile_unconfigured.
Qed.

Lemma saveToGitHub_files (kind : collection) (d : Post.t) (w : World) (p : string) :
  let f := files (github w) !! p in
  let f' := files (github (after (saveToGitHub kind d) w)) !! p in
  f' = f \/
  (exists sha, f' = Some (Json (JPost d), sha)) \/
  (exists sha existing,
     f' = Some (Json (JIndex (updated_index existing (meta_of d))), sha) /\
     (existing = [] \/
      exists sha0, files (github w) !! index_path kind = Some (Json (JIndex existing), sha0))).
Proof.
  cbv zeta. unfold saveToGitHub.
  match goal with |- context [putFile ?a ?b ?c] => set (m := putFile a b c) end.
  assert (files (github (after m w)) !! p = files (github w) !! p \/
          exists sha, files (github (after m w)) !! p = Some (Json (JPost d), sha)) as Hrec.
  { destruct (putFile_files (record_path kind (Post.id d)) (Json (JPost d))
                ((match kind with
                  | posts => "feat: publish post"
                  | drafts => "chore: save draft"
                  end) +:+ " (" +:+ Post.id d +:+ ")") w) as [H|[sha H]];
      fold m in H; rewrite H; [by left|].
    rewrite lookup_insert. case_decide; [right; by exists sha | by left]. }
  destruct (after_then m (upsertIndex kind (meta_of d)) w) as [-> | ->].
  - destruct Hrec as [H|H]; [by left | right; by left].
  - destruct (upsertIndex_files kind (meta_of d) (after m w)) as [H|(sha & ex & H & Hex)];
      rewrite H.
    + destruct Hrec as [H'|H']; [by left | right; by left].
    + rewrite lookup_insert. case_decide as Hp.
      * right. right. exists sha, ex. split; [done|].
        destruct Hex as [->|[sha0 Hex]]; [by left|]. right.
        destruct (putFile_files (record_path kind (Post.id d)) (Json (JPost d))
                    ((match kind with
                      | posts => "feat: publish post"
                      | drafts => "chore: save draft"
                      end) +:+ " (" +:+ Post.id d +:+ ")") w) as [H0|[sha1 H0]];
          fold m in H0; rewrite H0 in Hex; [by exists sha0|].
        rewrite lookup_insert in Hex. case_decide; [done | by exists sha0].
      * destruct Hrec as [H'|H']; [by left | right; by left].
Qed.

Lemma well_kept_github (w : World) (r : Remote) (kind : collection) (d : Post.t) :
  well_kept w ->
  r = github w \/ r = github (after (saveToGitHub kind d) w) ->
  forall (p : string) l sha,
    files r !! p = Some (Json (JIndex l), sha) ->
    NoDup (Meta.id <$> l) /\ StronglySorted not_older l.
Proof.
  intros [_ Hidx] [-> | ->] p l sha Hl; [by eapply Hidx|].
  destruct (saveToGitHub_files kind d w p) as [H|[[sha' H]|(sha' & ex & H & Hex)]];
    rewrite H in Hl.
  - by eapply Hidx.
  - done.
  - injection Hl as <- <-. split; [|apply Array_sort_sorted].
    apply updated_index_NoDup.
    destruct Hex as [->|[sha0 Hex]]; [constructor|]. by eapply Hidx.
Qed.

(** X19.  Every handler keeps the store well kept: each local collection
    holds an identifier at most once, and every index array in the
    repository is sorted newest first and lists an identifier at most
    once, whatever the network does.  So it is in every world reached
    from a fresh browser and an empty repository. *)
Theorem handlers_keep_the_store (ev : event) (w : World) :
  (well_kept w -> well_kept (after (handle ev) w)) /\
  (forall evs, well_kept w -> well_kept (run evs w)) /\
  (forall w0, reachable w0 -> well_kept w0).
Proof.
  assert (forall ev w, well_kept w -> well_kept (after (handle ev) w)) as Hstep.
  { clear ev w. intros ev w Hw. pose proof Hw as [Hloc Hidx]. split.
    - destruct (handle_effect ev w) as [_ Hshape]. cbv zeta in Hshape.
      pose proof (Hloc drafts) as Hd. pose proof (Hloc posts) as Hp.
      unfold local_ids in *.
      assert (NoDup (Post.id <$> stored (localStorage (after (handle ev) w)) drafts) /\
              NoDup (Post.id <$> stored (localStorage (after (handle ev) w)) posts)) as [? ?].
      { destruct Hshape as [[-> ->]|[(i & -> & ->)|[(d & -> & ->)|(random & now & _ & -> & ->)]]];
          split; auto using removeById_NoDup, upsert_NoDup. }
      intros []; done.
    - destruct ev as [title html plain|random now|random now|random now
                      |id plain|id|o r b t|]; simpl handle.
      + exact Hidx.
      + destruct (saveDraftLocal_click_world random now w) as (_ & -> & _). exact Hidx.
      + destruct (saveDraftGh_click_world random now w) as (r' & msg & _ & -> & Hoff & Hon).
        cbn [github with_ui with_github].
        apply (well_kept_github w r' drafts (gathered random now w) Hw).
        destruct (all_four (settings w)); [right; by apply Hon | left; by apply Hoff].
      + destruct (publish_click_world random now w)
          as [[_ ->]|[(_ & _ & _ & [[_ ->]|[_ ->]])|(_ & _ & ->)]];
          cbn [github with_ui with_github with_localStorage]; try exact Hidx;
          apply (well_kept_github w _ posts (gathered random now w) Hw); by right.
      + destruct (loadDraft_world id plain w) as [_ ->]. exact Hidx.
      + unfold after. rewrite BlogStore_deleteDraft_run. exact Hidx.
      + exact Hidx.
      + exact Hidx. }
  assert (forall evs w, well_kept w -> well_kept (run evs w)) as Hrun.
  { intros evs. induction evs as [|e evs IH]; intros w1 Hw1; [done|].
    unfold run. simpl. apply IH. by apply Hstep. }
  split_and!.
  - apply Hstep.
  - intros evs. apply Hrun.
  - intros w0 [evs ->]. apply Hrun. split.
    + intros []; constructor.
    + intros p l sha H. simpl in H. by rewrite lookup_empty in H.
Qed.

Lemma handlers_keep_the_store_witness :
  well_kept drafted_then_published /\
  index_file posts drafted_then_published <> None.
Proof.
  split.
  - destruct (handlers_keep_the_store GhClear fresh) as (_ & _ & H).
    apply H. by eexists.
  - vm_compute. discriminate.
Defined.

(** X20.  A local draft save always saves, also in GitHub mode: it sends no
    request and leaves the repository, the posts and the settings as they
    are; the draft then found under the gathered identifier is the
    gathered record, and the alert says so. *)
Theorem local_save_stays_local (random : string) (now : Z) (w : World) :
  let d := gathered random now w in
  let w' := after (saveDraftLocal_click random now) w in
  result (saveDraftLocal_click random now) w = Normal tt /\
  github w' = github w /\
  ls_posts (localStorage w') = ls_posts (localStorage w) /\
  ls_gh (localStorage w') = ls_gh (localStorage w) /\
  find (has_id (Some (Post.id d))) (stored (localStorage w') drafts) = Some d /\
  ui w' = (ui w ++ [Alert "Draft saved locally"])%list.
Proof.
  cbv zeta. unfold result, after, saveDraftLocal_click, bind.
  rewrite gatherPostData_run, BlogStore_saveDraft_run. cbn.
  split_and!; try done. apply find_upsert.
Qed.

(** X21.  [readJson] never throws.  It returns a value exactly when the
    settings are present and the raw read is delivered a file that
    parses; a lost or refused request, a missing file and text that is
    not JSON all read as null.  With settings it sends one raw read,
    without settings none. *)
Theorem readJson_reads_failure_as_null (path : string) (w : World) :
  (exists v, result (readJson path) w = Normal v) /\
  (forall j, result (readJson path) w = Normal (Some j) <->
     exists s sha, settings w = Some s /\ delivered (github w) = true /\
                   files (github w) !! path = Some (Json j, sha)) /\
  (forall s, settings w = Some s ->
     log (github (after (readJson path) w)) = (log (github w) ++ [GET_raw path])%list) /\
  (settings w = None -> after (readJson path) w = w).
Proof.
  unfold result, after. destruct (settings w) as [s|] eqn:Hs.
  - rewrite (readJson_run _ _ _ Hs). cbn [fst snd]. split_and!.
    + by eexists.
    + intros j. unfold raw_read, delivered.
      destruct (net (github w)) as [|[| |f] n];
        destruct (files (github w) !! path) as [[[raw|j0] sha]|]; split;
        try (intros [= <-]; by eexists s, _);
        try (intros (? & ? & _ & ? & [= <-]); done);
        try done; try (intros (? & ? & _ & ? & ?); done).
    + by intros s' _.
    + done.
  - rewrite (readJson_unconfigured _ _ Hs). cbn [fst snd]. split_and!.
    + by eexists.
    + intros j. split; [done | by intros (? & ? & ? & _)].
    + done.
    + done.
Qed.

Lemma readJson_reads_failure_as_null_witness :
  let w := holding configured [("posts/index.json", Json (JIndex [entry "a" 1]))] in
  settings w = Some {| owner := Some "owner"; repo := Some "repo";
                       branch := Some "main"; token := Some "token" |} /\
  result (readJson "posts/index.json") w = Normal (Some (JIndex [entry "a" 1])) /\
  result (readJson "posts/index.json") (failing w [Down]) = Normal None /\
  result (readJson "drafts/index.json") w = Normal None.
Proof.
  split; [reflexivity|].
  destruct (readJson_reads_failure_as_null "posts/index.json"
              (holding configured [("posts/index.json", Json (JIndex [entry "a" 1]))]))
    as (_ & H & _).
  split; [|split; reflexivity].
  apply H. eexists _, "v". split; [reflexivity|]. split; reflexivity.
Defined.

(** ** A draft save to the repository *)

Lemma then_normal {A} (m : M A) (k : M unit) (w : World) :
  result (m ;;; k) w = Normal tt ->
  (exists a, result m w = Normal a) /\
  result k (after m w) = Normal tt /\
  after (m ;;; k) w = after k (after m w).
Proof.
  unfold result, after, bind. destruct (m w) as [[a|e] w1]; cbn [fst snd]; [|done].
  intros Hk. split; [by exists a|]. split; [|done]. by destruct (fst (k w1)) as [[]|].
Qed.

(** The array [upsertIndex] starts from is empty or the one the index file
    holds. *)
Lemma existing_index_held (kind : collection) (w : World) :
  existing_index kind w = [] \/ index_file kind w = Some (existing_index kind w).
Proof.
  destruct (settings w) as [s|] eqn:Hs.
  - rewrite (existing_index_run _ _ _ Hs). unfold raw_read, index_file.
    destruct (net (github w)) as [|[| |f] n]; try (by left);
      destruct (files (github w) !! index_path kind) as [[[raw|[r|l]] sha]|];
      try (by left); by right.
  - left. unfold existing_index, result. by rewrite (readJson_unconfigured _ _ Hs).
Qed.

(** What [saveToGitHub] returns normally, it has written: the index file
    holds the entry of the record, and the record file the record. *)
Lemma saveToGitHub_written (kind : collection) (d : Post.t) (w : World) :
  result (saveToGitHub kind d) w = Normal tt ->
  let w' := after (saveToGitHub kind d) w in
  (exists existing,
     index_file kind w' = Some (updated_index existing (meta_of d)) /\
     (existing = [] \/ index_file kind w = Some existing)) /\
  (Post.id d ≠ "index" ->
   exists sha, files (github w') !! record_path kind (Post.id d) = Some (Json (JPost d), sha)).
Proof.
  unfold saveToGitHub.
  match goal with |- context [putFile ?a ?b ?c] => set (m := putFile a b c) end.
  cbv zeta. intros Hres.
  apply then_normal in Hres as ([a Hput] & Hidx & ->).
  apply putFile_normal in Hput as [sha Hrec]. fold m in Hrec.
  split.
  - exists (existing_index kind (after m w)). split; [by apply upsertIndex_written|].
    destruct (existing_index_held kind (after m w)) as [He|He]; [by left|]. right.
    rewrite <- He. unfold index_file.
    destruct (putFile_files (record_path kind (Post.id d)) (Json (JPost d))
                ((match kind with
                  | posts => "feat: publish post"
                  | drafts => "chore: save draft"
                  end) +:+ " (" +:+ Post.id d +:+ ")") w) as [H|[sha1 H]];
      fold m in H; [by rewrite H|].
    unfold index_file in He. rewrite H in He. rewrite H.
    rewrite lookup_insert in He. rewrite lookup_insert.
    by case_decide.
  - intros Hid.
    destruct (upsertIndex_files kind (meta_of d) (after m w)) as [H|(sha1 & ex & H & _)];
      rewrite H; [by exists sha|].
    rewrite lookup_insert_ne; [by exists sha|].
    intros Heq. apply Hid. symmetry in Heq. by apply record_path_index in Heq.
Qed.

Lemma updated_index_lists (existing : list Meta.t) (d : Post.t) :
  Post.id d ∈ Meta.id <$> updated_index existing (meta_of d).
Proof.
  change (Post.id d) with (Meta.id (meta_of d)).
  apply list_elem_of_fmap_2, updated_index_elem. by right.
Qed.

(** X13.  A draft save to GitHub changes neither local storage nor the
    editor, so the draft does not become the current one, and it ends
    with one alert.  With incomplete settings the alert asks for them and
    nothing is sent.  With complete settings the alert reports the save or
    the failure, the save exactly when [saveToGitHub] returned.  Whenever
    the alert reports the save, both files are written: the index file of
    the drafts holds the updated index, which lists the draft, and the
    record file holds the draft (for every identifier but ["index"], whose
    record file is the index file). *)
Theorem saveDraftGh_reports_outcome (random : string) (now : Z) (w : World) :
  let d := gathered random now w in
  let w' := after (saveDraftGh_click random now) w in
  let saved := ui w' = (ui w ++ [Alert "Draft saved to GitHub."])%list in
  let failed := ui w' = (ui w ++ [Alert "Failed saving draft to GitHub."])%list in
  localStorage w' = localStorage w /\
  editor w' = editor w /\
  (all_four (settings w) = false ->
   w' = with_ui w (ui w ++ [Alert "Configure GitHub settings first."])%list) /\
  (all_four (settings w) = true ->
   (saved <-> result (saveToGitHub drafts d) w = Normal tt) /\
   (failed <-> exists e, result (saveToGitHub drafts d) w = Throw e)) /\
  (saved ->
   (exists existing,
      index_file drafts w' = Some (updated_index existing (meta_of d)) /\
      (existing = [] \/ index_file drafts w = Some existing)) /\
   remote_lists w' drafts (Post.id d) /\
   (Post.id d ≠ "index" ->
    exists sha,
      files (github w') !! record_path drafts (Post.id d) = Some (Json (JPost d), sha))).
Proof.
  intros d w' saved failed. subst saved failed w'.
  unfold after. rewrite saveDraftGh_click_run. fold d.
  destruct (all_four (settings w)) eqn:Hcfg.
  - pose proof (saveToGitHub_written drafts d w) as Hwritten.
    unfold result, after in Hwritten. unfold result.
    unfold try_catch, bind.
    destruct (github_only_saveToGitHub drafts d w) as (r' & Hw & _).
    destruct (saveToGitHub drafts d w) as [[[]|e] w1]; cbn [fst snd] in *; subst w1;
      cbn [alert modify snd fst ui github localStorage editor with_ui with_github].
    + split_and!; [done|done|done| |].
      * intros _. split; [done|]. split.
        -- intros H. apply app_inv_head in H. discriminate H.
        -- by intros [e He].
      * intros _. destruct (Hwritten eq_refl) as [(existing & Hex & Hheld) Hrec].
        split_and!.
        -- by exists existing.
        -- unfold remote_lists. unfold index_file in Hex.
           cbn [github with_ui with_github] in *.
           destruct (files r' !! index_path drafts) as [[[raw|[r|l]] sha]|] eqn:Hf;
             try done. injection Hex as ->.
           exists (updated_index existing (meta_of d)), sha. split; [done|].
           apply updated_index_lists.
        -- exact Hrec.
    + split_and!; [done|done|done| |].
      * intros _. split; [|split; [by exists e | done]].
        split; [|done]. intros H. apply app_inv_head in H. discriminate H.
      * intros H. apply app_inv_head in H. discriminate H.
  - cbn [alert modify snd fst ui github localStorage editor with_ui].
    split_and!; [done|done|done|done|].
    intros H. apply app_inv_head in H. discriminate H.
Qed.

Lemma saveDraftGh_reports_outcome_witness :
  let w := written configured in
  let d := gathered "abc" 100 w in
  (all_four (settings w) = true /\
   result (saveToGitHub drafts d) w = Normal tt /\
   ui (after (saveDraftGh_click "abc" 100) w)
   = [Alert "GitHub settings saved locally."; Alert "Draft saved to GitHub."] /\
   remote_lists (after (saveDraftGh_click "abc" 100) w) drafts (Post.id d) /\
   exists sha,
     files (github (after (saveDraftGh_click "abc" 100) w)) !! record_path drafts (Post.id d)
     = Some (Json (JPost d), sha)) /\
  (all_four (settings (failing w [Up; Down])) = true /\
   result (saveToGitHub drafts (gathered "abc" 100 (failing w [Up; Down])))
     (failing w [Up; Down]) = Throw NetworkError /\
   ui (after (saveDraftGh_click "abc" 100) (failing w [Up; Down]))
   = [Alert "GitHub settings saved locally."; Alert "Failed saving draft to GitHub."]).
Proof.
  split.
  - destruct (saveDraftGh_reports_outcome "abc" 100 (written configured))
      as (_ & _ & _ & Hon & Hsaved).
    destruct (Hon eq_refl) as [[_ Hok] _].
    assert (result (saveToGitHub drafts (gathered "abc" 100 (written configured)))
              (written configured) = Normal tt) as Hres by (vm_compute; reflexivity).
    split; [reflexivity|]. split; [exact Hres|].
    split; [exact (Hok Hres)|].
    destruct (Hsaved (Hok Hres)) as (_ & Hlists & Hrec).
    split; [exact Hlists|]. apply Hrec. discriminate.
  - destruct (saveDraftGh_reports_outcome "abc" 100 (failing (written configured) [Up; Down]))
      as (_ & _ & _ & Hon & _).
    destruct (Hon eq_refl) as [_ [_ Hfail]].
    assert (result (saveToGitHub drafts
                      (gathered "abc" 100 (failing (written configured) [Up; Down])))
              (failing (written configured) [Up; Down]) = Throw NetworkError) as Hres
      by (vm_compute; reflexivity).
    split; [reflexivity|]. split; [exact Hres|].
    apply Hfail. by exists NetworkError.
Defined.
